(** * Keyword indexer of the meeting assistant

    A shallow embedding of [backend/keyword_indexer.py] (class
    [KeywordIndexer]) and the properties of its four operations, followed
    by the request handlers of [backend/main.py] that call the indexer and
    the tag generation of [agent/meeting_agent.py].

    Modelling conventions.
    - Python [str] is [string]. What the characters of a text are, which of
      them the regular-expression class [\w] matches and what [str.lower]
      returns is the Unicode data of the interpreter: it is the interface
      [PyStr], whose laws are facts about that data (whitespace is neither
      cased nor a word character; on text of ASCII characters the data is
      the ASCII part written out in [Ascii7]). The scan of [re.findall] and
      the rest of the tokenizer are written out over that interface, and
      the properties hold for every instance of it.
    - Python [int] is [Z]; a counter that starts at 0 and is only ever
      incremented is [nat].
    - [Dict[str, Set[int]]] is [gmap string (gset Z)], [Dict[int, str]] is
      [gmap Z string]. The score table of [get_relevant_notes] is a [dict]
      whose insertion order decides how ties are listed, so it is an
      association list.
    - The order in which a Python [set] is iterated is not specified by the
      language, and in CPython it depends on how the set was built: on the
      insertions and removals behind it, not on its members alone. It is
      the interface [SetIter]: an instance is the order at one moment, any
      enumeration without repetition of the members. A property of one
      state holds for every instance; a property that compares the lists
      of two states takes one instance for each state.
    - A Python exception is the result [None] of an operation that can
      raise; the operations without such a step are plain functions. *)

From Stdlib Require Import Ascii String ZArith Lia.
From stdpp Require Import gmap strings list fin_maps sorting.

Local Open Scope Z_scope.
Local Open Scope nat_scope.

(** ** Text primitives *)

Module Text.

(** The ASCII characters [str.isspace] accepts. *)
Definition is_space (c : ascii) : bool :=
  let n := nat_of_ascii c in
  ((9 <=? n) && (n <=? 13)) || ((28 <=? n) && (n <=? 32)).

Section Scan.
(** The characters of the text and the class [\w]. *)
Context {char : Type} (is_word : char → bool).

(** A position outside the text counts as a non-word character. *)
Definition is_word_at (c : option char) : bool := from_option is_word false c.

(** [\b]: exactly one of the two neighbours is a word character. *)
Definition word_boundary (before after : option char) : bool :=
  xorb (is_word_at before) (is_word_at after).

(** Greedy [\w+]: how many characters it takes at the start of [s]. *)
Fixpoint word_prefix_len (s : list char) : nat :=
  match s with
  | c :: s' => if is_word c then S (word_prefix_len s') else 0
  | [] => 0
  end.

(** The trailing [\b], tried at the longest candidate first and then at
    the shorter ones; [\w+] needs at least one character. *)
Fixpoint backtrack_end (s : list char) (k : nat) : option nat :=
  match k with
  | 0 => None
  | S k' => if word_boundary (s !! k') (s !! k) then Some k
            else backtrack_end s k'
  end.

(** One attempt of [\b\w+\b] at a position: [prev] is the character
    before it, [s] the text from it on. The result is the length matched. *)
Definition match_at (prev : option char) (s : list char) : option nat :=
  if word_boundary prev (head s) then backtrack_end s (word_prefix_len s)
  else None.

(** The scan of [re.findall]: positions from left to right; after a match
    the scan resumes at its end ([skip] counts the characters still to be
    passed over), after a failure one character further. *)
Fixpoint findall_from (prev : option char) (skip : nat) (s : list char)
  : list (list char) :=
  match s with
  | [] => []
  | c :: s' =>
      match skip with
      | S k => findall_from (Some c) k s'
      | 0 =>
          match match_at prev s with
          | Some e => take e s :: findall_from (Some c) (e - 1) s'
          | None => findall_from (Some c) 0 s'
          end
      end
  end.

(** [re.findall(r'\b\w+\b', text)] *)
Definition findall (text : list char) : list (list char) :=
  findall_from None 0 text.

(** The maximal runs of word characters of a text, as a relation: the
    text is a separator, then a run, then the remainder, which does not
    start with a word character. *)
Inductive maximal_runs : list char → list (list char) → Prop :=
| runs_done sep :
    Forall (λ c, is_word c = false) sep → maximal_runs sep []
| runs_next sep w rest ws :
    Forall (λ c, is_word c = false) sep →
    w ≠ [] → Forall (λ c, is_word c = true) w →
    is_word_at (head rest) = false →
    maximal_runs rest ws →
    maximal_runs (sep ++ w ++ rest) (w :: ws).

End Scan.

End Text.

(** ** The ASCII part of the Unicode data *)

Module Ascii7.

(** The characters of code point 0 to 127. *)
Definition seven_bit (c : ascii) : Prop := nat_of_ascii c < 128.

(** A text of ASCII characters only. *)
Definition is_ascii (text : string) : Prop :=
  Forall seven_bit (list_ascii_of_string text).

(** The ASCII characters [\w] matches: digits, letters, underscore. *)
Definition is_word (c : ascii) : bool :=
  let n := nat_of_ascii c in
  ((48 <=? n) && (n <=? 57)) || ((65 <=? n) && (n <=? 90))
  || (n =? 95) || ((97 <=? n) && (n <=? 122)).

(** What [str.lower] does to an ASCII character. *)
Definition lower_char (c : ascii) : ascii :=
  let n := nat_of_ascii c in
  if (65 <=? n) && (n <=? 90) then ascii_of_nat (n + 32) else c.

End Ascii7.

(** ** Python strings *)

(** What the interpreter knows about a [str]: its characters, the text
    with given characters, the class [\w] of a [str] pattern,
    [str.isspace] and [str.lower], which works on the whole text (it may
    take the neighbours of a character into account and change the number
    of characters). The laws: a text of ASCII characters has these as its
    characters, with the ASCII data of [Ascii7] and [Text.is_space]; a
    whitespace character is no word character; lowercasing leaves a text
    of whitespace as it is. *)
Class PyStr := {
  pychar : Type;
  chars : string → list pychar;
  text_of : list pychar → string;
  py_is_word : pychar → bool;
  py_is_space : pychar → bool;
  py_lower : list pychar → list pychar;
  of_ascii : ascii → pychar;
  chars_ascii : ∀ l, Forall Ascii7.seven_bit l →
    chars (string_of_list_ascii l) = of_ascii <$> l;
  text_of_ascii : ∀ l, Forall Ascii7.seven_bit l →
    text_of (of_ascii <$> l) = string_of_list_ascii l;
  py_is_word_ascii : ∀ a, Ascii7.seven_bit a →
    py_is_word (of_ascii a) = Ascii7.is_word a;
  py_is_space_ascii : ∀ a, Ascii7.seven_bit a →
    py_is_space (of_ascii a) = Text.is_space a;
  py_lower_ascii : ∀ l, Forall Ascii7.seven_bit l →
    py_lower (of_ascii <$> l) = of_ascii <$> (Ascii7.lower_char <$> l);
  py_space_not_word : ∀ c, py_is_space c = true → py_is_word c = false;
  py_lower_space : ∀ l, Forall (λ c, py_is_space c = true) l → py_lower l = l
}.

(** The texts of 8-bit characters with the ASCII data, and nothing cased
    or matched by [\w] above code point 127: the instance in which the
    concrete runs, all on ASCII text, are computed. By the laws every
    instance has the same tokens for an ASCII text. *)
Definition ascii_pystr : PyStr.
Proof.
  refine {| pychar := ascii;
            chars := list_ascii_of_string;
            text_of := string_of_list_ascii;
            py_is_word := Ascii7.is_word;
            py_is_space := Text.is_space;
            py_lower := fmap Ascii7.lower_char;
            of_ascii := id |}.
  - intros l _. by rewrite list_fmap_id, list_ascii_of_string_of_list_ascii.
  - intros l _. by rewrite list_fmap_id.
  - reflexivity.
  - reflexivity.
  - intros l _. by rewrite !list_fmap_id.
  - intros [[] [] [] [] [] [] [] []]; vm_compute; congruence.
  - induction 1 as [|c l Hc _ IH]; cbn; [reflexivity|].
    rewrite IH. f_equal. revert Hc.
    destruct c as [[] [] [] [] [] [] [] []]; vm_compute; congruence.
Defined.

(** ** The tokenizer *)

(** [KeywordIndexer._tokenize] *)
Definition _tokenize `{PyStr} (text : string) : list string :=
  let text := py_lower (chars text) in
  let words := Text.findall py_is_word text in
  text_of <$> filter (λ w, 2 < length w) words.

(** ** The indexer state *)

(** The two attributes set by [KeywordIndexer.__init__]. *)
Record KeywordIndexer := mkIndexer {
  index : gmap string (gset Z);
  meeting_notes : gmap Z string
}.

(** [KeywordIndexer()] *)
Definition new_indexer : KeywordIndexer :=
  {| index := ∅; meeting_notes := ∅ |}.

(** ** Dictionary primitives *)

(** [d[k]] on a [defaultdict(set)]: a missing key reads as the empty set. *)
Definition posting (idx : gmap string (gset Z)) (word : string) : gset Z :=
  default ∅ (idx !! word).

(** [d[k]] on a plain [dict]: [None] stands for the [KeyError] raised on a
    missing key. *)
Definition dict_getitem (d : gmap Z string) (k : Z) : option string := d !! k.

(** [del d[k]] on a plain [dict]: [None] stands for the [KeyError]. *)
Definition dict_delitem (d : gmap Z string) (k : Z) : option (gmap Z string) :=
  match d !! k with
  | Some _ => Some (delete k d)
  | None => None
  end.

(** ** Index mutation *)

(** [self.index[word].add(meeting_id)] *)
Definition add_posting (meeting_id : Z) (idx : gmap string (gset Z))
    (word : string) : gmap string (gset Z) :=
  <[word := posting idx word ∪ {[meeting_id]}]> idx.

(** [self.index[word].discard(meeting_id)]; reading [self.index[word]]
    creates the entry when the word has none. *)
Definition discard_posting (meeting_id : Z) (idx : gmap string (gset Z))
    (word : string) : gmap string (gset Z) :=
  <[word := posting idx word ∖ {[meeting_id]}]> idx.

Section Mutation.
Context `{PyStr}.

(** [KeywordIndexer.index_meeting] *)
Definition index_meeting (self : KeywordIndexer) (meeting_id : Z)
    (notes : string) : KeywordIndexer :=
  let store := <[meeting_id := notes]> (meeting_notes self) in
  let words := _tokenize notes in
  {| index := foldl (add_posting meeting_id) (index self) words;
     meeting_notes := store |}.

(** [KeywordIndexer.remove_meeting]; [None] is an exception leaving the
    method. *)
Definition remove_meeting (self : KeywordIndexer) (meeting_id : Z)
    : option KeywordIndexer :=
  if decide (meeting_id ∈ dom (meeting_notes self)) then
    notes ← dict_getitem (meeting_notes self) meeting_id;
    let words := _tokenize notes in
    let idx := foldl (discard_posting meeting_id) (index self) words in
    store ← dict_delitem (meeting_notes self) meeting_id;
    Some {| index := idx; meeting_notes := store |}
  else Some self.

End Mutation.

(** ** Queries *)

(** The order in which [for x in s] and [list(s)] visit a set at one
    moment. The order of the same members can be another one in another
    state, after the set was added to or removed from. *)
Class SetIter := {
  set_iter : gset Z → list Z;
  set_iter_NoDup : ∀ s, NoDup (set_iter s);
  set_iter_elem : ∀ s x, x ∈ set_iter s ↔ x ∈ s
}.

(** One entry of the list returned by [get_relevant_notes]: the dictionary
    with the keys ["meeting_id"], ["score"] and ["notes"]. *)
Record note_hit := mkHit {
  hit_meeting_id : Z;
  hit_score : nat;
  hit_notes : string
}.

(** [meeting_scores[meeting_id] += 1] on a [defaultdict(int)]: a key keeps
    the place of its first insertion. *)
Fixpoint bump (scores : list (Z * nat)) (meeting_id : Z) : list (Z * nat) :=
  match scores with
  | [] => [(meeting_id, 1)]
  | (m, n) :: scores' =>
      if decide (m = meeting_id) then (m, S n) :: scores'
      else (m, n) :: bump scores' meeting_id
  end.

(** [sorted(items, key=lambda x: x[1], reverse=True)]: a stable sort, the
    largest score first; entries of equal score keep their order. *)
Fixpoint insert_desc (x : Z * nat) (l : list (Z * nat)) : list (Z * nat) :=
  match l with
  | [] => [x]
  | y :: l' => if x.2 <? y.2 then y :: insert_desc x l' else x :: l
  end.

Definition sorted_desc (items : list (Z * nat)) : list (Z * nat) :=
  foldr insert_desc [] items.

(** [l[:limit]]: a negative bound counts from the end of the list. *)
Definition slice_to {A} (l : list A) (limit : Z) : list A :=
  if (limit <? 0)%Z then take (Z.to_nat (Z.of_nat (length l) + limit)) l
  else take (Z.to_nat limit) l.

(** The dictionary built for one pair [(mid, score)] of the sorted table;
    [self.meeting_notes.get(mid, "...")] falls back to the empty text. *)
Definition make_hit (self : KeywordIndexer) (item : Z * nat) : note_hit :=
  let '(mid, score) := item in
  {| hit_meeting_id := mid; hit_score := score;
     hit_notes := default EmptyString (meeting_notes self !! mid) |}.

Section Queries.
Context `{PyStr} `{SetIter}.

(** [KeywordIndexer.search_keywords] *)
Definition search_keywords (self : KeywordIndexer) (query : string)
    : list Z :=
  let keywords := _tokenize query in
  match keywords with
  | [] => []
  | _ =>
      let meeting_ids :=
        foldl (λ ids keyword,
                 match index self !! keyword with
                 | Some s => ids ∪ s
                 | None => ids
                 end) (∅ : gset Z) keywords in
      set_iter meeting_ids
  end.

(** The body of the loop over the keywords in [get_relevant_notes]. *)
Definition score_keyword (idx : gmap string (gset Z))
    (scores : list (Z * nat)) (keyword : string) : list (Z * nat) :=
  match idx !! keyword with
  | Some s => foldl bump scores (set_iter s)
  | None => scores
  end.

(** The table [meeting_scores] once the loop has ended. *)
Definition meeting_scores (self : KeywordIndexer) (keywords : list string)
    : list (Z * nat) :=
  foldl (score_keyword (index self)) [] keywords.

(** [KeywordIndexer.get_relevant_notes] *)
Definition get_relevant_notes (self : KeywordIndexer) (query : string)
    (limit : Z) : list note_hit :=
  let keywords := _tokenize query in
  match keywords with
  | [] => []
  | _ =>
      let sorted_meetings :=
        slice_to (sorted_desc (meeting_scores self keywords)) limit in
      make_hit self
        <$> sorted_meetings
  end.

End Queries.

(** Sets are listed in the order of stdpp's [elements] where a concrete
    run is computed. *)
#[global] Instance elements_iter : SetIter :=
  {| set_iter := elements;
     set_iter_NoDup := NoDup_elements;
     set_iter_elem := λ s x, elem_of_elements s x |}.

(** An order that lists the members found in [order] first, as they come
    in [order], and then the others. *)
Definition listed_first (order : list Z) (s : gset Z) : list Z :=
  filter (λ x, x ∈ s) (remove_dups order)
  ++ filter (λ x, x ∉ order) (elements s).

Definition order_listing (order : list Z) : SetIter.
Proof.
  refine {| set_iter := listed_first order |}.
  - intros s. apply NoDup_app. split_and!.
    + apply NoDup_filter, NoDup_remove_dups.
    + intros x [_ Hx]%list_elem_of_filter [Hnx _]%list_elem_of_filter.
      rewrite elem_of_remove_dups in Hx. by apply Hnx.
    + apply NoDup_filter, NoDup_elements.
  - intros s x. unfold listed_first.
    rewrite elem_of_app, !list_elem_of_filter, elem_of_remove_dups,
      elem_of_elements.
    destruct (decide (x ∈ order)); naive_solver.
Defined.

(** ** Notions used to state the properties *)

Section Notions.
Context `{PyStr}.

(** The documents some token of the query posts: the union of the posting
    sets of the tokens of the query. *)
Definition matching_docs (self : KeywordIndexer) (query : string) : gset Z :=
  ⋃ (posting (index self) <$> _tokenize query).

(** How many tokens of the query, each occurrence counted, post [doc]. *)
Definition occurrence_score (self : KeywordIndexer) (query : string)
    (doc : Z) : nat :=
  length (filter (λ w, doc ∈ posting (index self) w) (_tokenize query)).

(** How many distinct tokens of the query post [doc]. *)
Definition distinct_token_score (self : KeywordIndexer) (query : string)
    (doc : Z) : nat :=
  length (filter (λ w, doc ∈ posting (index self) w)
            (remove_dups (_tokenize query))).

(** The score a table holds for [doc]; 0 when it has no entry for it. *)
Fixpoint score_in (scores : list (Z * nat)) (doc : Z) : nat :=
  match scores with
  | [] => 0
  | (m, n) :: scores' => if decide (m = doc) then n else score_in scores' doc
  end.

(** A score table as a [dict] has it: one entry for a key, and here no
    entry with score 0. *)
Definition scores_ok (scores : list (Z * nat)) : Prop :=
  NoDup scores.*1 ∧ Forall (λ item, 0 < item.2) scores.

(** Largest score first. *)
Definition by_score_desc (a b : Z * nat) : Prop := b.2 ≤ a.2.

(** [doc] is a member of some entry of the token→postings mapping. *)
Definition posted (self : KeywordIndexer) (doc : Z) : Prop :=
  ∃ w s, index self !! w = Some s ∧ doc ∈ s.

(** [doc] occurs nowhere in the state. *)
Definition absent (self : KeywordIndexer) (doc : Z) : Prop :=
  meeting_notes self !! doc = None ∧ ¬ posted self doc.

(** The states a caller reaches from a new indexer when it never indexes
    an id that is still stored. *)
Inductive reachable : KeywordIndexer → Prop :=
| reach_new : reachable new_indexer
| reach_index self doc notes :
    reachable self → meeting_notes self !! doc = None →
    reachable (index_meeting self doc notes)
| reach_remove self doc self' :
    reachable self → remove_meeting self doc = Some self' →
    reachable self'.

(** Every member of a posting set is a stored document whose text has the
    token, and conversely. *)
Definition postings_exact (self : KeywordIndexer) : Prop :=
  ∀ w doc, doc ∈ posting (index self) w ↔
           ∃ notes, meeting_notes self !! doc = Some notes
                    ∧ w ∈ _tokenize notes.

(** The tokens posting a stored document are the tokens of its text. *)
Definition postings_match_text (self : KeywordIndexer) : Prop :=
  ∀ doc notes, meeting_notes self !! doc = Some notes →
    ∀ w, doc ∈ posting (index self) w ↔ w ∈ _tokenize notes.

(** Lockstep the way the claim words it: posted exactly when stored. *)
Definition lockstep_posted_iff_stored (self : KeywordIndexer) : Prop :=
  (∀ doc, posted self doc ↔ is_Some (meeting_notes self !! doc))
  ∧ postings_match_text self.

(** Lockstep the way the code keeps it: what is posted is stored, and a
    stored document is posted exactly when its text has a token. *)
Definition lockstep (self : KeywordIndexer) : Prop :=
  (∀ doc, posted self doc ↔
          ∃ notes, meeting_notes self !! doc = Some notes
                   ∧ _tokenize notes ≠ [])
  ∧ postings_match_text self.

End Notions.

Section Observation.
Context `{PyStr}.

(** The whole table of [get_relevant_notes] after the sort, before the
    slice. *)
Definition ranked `{SetIter} (self : KeywordIndexer) (query : string)
    : list (Z * nat) :=
  sorted_desc (meeting_scores self (_tokenize query)).

(** Two states no query tells apart, lists compared as they are:
    [before] is the order of the sets in the state [a], [after] in the
    state [b]. *)
Definition same_results (before after : SetIter) (a b : KeywordIndexer)
    : Prop :=
  ∀ query,
    @search_keywords _ after b query = @search_keywords _ before a query
    ∧ ∀ limit, @get_relevant_notes _ after b query limit
               = @get_relevant_notes _ before a query limit.

(** Two states no query tells apart but for the order in which sets are
    iterated: [search_keywords] returns the same ids; at every limit
    [get_relevant_notes] returns the same scores in the same places, and
    entries that the ranking without truncation has in the other state;
    with a limit that does not truncate it returns the same entries. *)
Definition same_results_up_to_order (before after : SetIter)
    (a b : KeywordIndexer) : Prop :=
  ∀ query,
    @search_keywords _ after b query ≡ₚ @search_keywords _ before a query
    ∧ (∀ limit,
         hit_score <$> @get_relevant_notes _ after b query limit
         = hit_score <$> @get_relevant_notes _ before a query limit)
    ∧ (∀ limit hit,
         hit ∈ @get_relevant_notes _ after b query limit →
         hit ∈ @get_relevant_notes _ before a query
                 (Z.of_nat (size (matching_docs a query))))
    ∧ (∀ limit,
         (Z.of_nat (size (matching_docs a query)) ≤ limit)%Z →
         @get_relevant_notes _ after b query limit
         ≡ₚ @get_relevant_notes _ before a query limit).

End Observation.

(** ** The request handlers of [backend/main.py] that use the indexer

    The database is the table of meetings by primary key. The ORM class
    [Meeting] and the request model [MeetingUpdate] stay abstract: a row
    with its columns [title] and [raw_notes], and the effect on a row of the
    [setattr] loop over the fields of the request followed by [commit] and
    [refresh], which is no row when [commit] raises, as it does for a
    request that sets a column declared NOT NULL to null. The other
    database calls are modelled for runs in which they succeed. *)

(** What a handler gives back: the value it returns, or the status code of
    the [HTTPException] it raises (500 for an exception nothing catches). *)
Inductive response (A : Type) : Type :=
| Returns (a : A)
| HTTPException (status_code : nat).
Arguments Returns {A} a.
Arguments HTTPException {A} status_code.

(** The table [meetings] and the module-level [keyword_indexer]. *)
Record app_state (Meeting : Type) := mkApp {
  db : gmap Z Meeting;
  keyword_indexer : KeywordIndexer
}.
Arguments mkApp {Meeting} db keyword_indexer.
Arguments db {Meeting} a.
Arguments keyword_indexer {Meeting} a.

(** The dictionary [ask_ai] returns. *)
Record ask_ai_result := mkAnswer {
  ans_question : string;
  ans_answer : string;
  ans_relevant_meetings : list (Z * string)
}.

Section Handlers.
Context {Meeting MeetingUpdate : Type}.
Context (title raw_notes : Meeting → string).
Context (apply_update : MeetingUpdate → Meeting → option Meeting).
(** [meeting_agent.answer_question]: it catches its own exceptions and
    always returns a text. *)
Context (answer_question : string → list (Z * string * string) → string).
Context `{PyStr} `{SetIter}.

(** [startup_event]: the rows of [db.query(Meeting).all()] indexed one
    after the other. *)
Definition startup_event (st : app_state Meeting) : app_state Meeting :=
  let meetings := map_to_list (db st) in
  {| db := db st;
     keyword_indexer :=
       foldl (λ idx meeting, index_meeting idx meeting.1 (raw_notes meeting.2))
         (keyword_indexer st) meetings |}.

(** [create_meeting]: [db_meeting] is the row after [commit] and
    [refresh], [new_id] the primary key the database gave it. *)
Definition create_meeting (st : app_state Meeting) (new_id : Z)
    (db_meeting : Meeting) : response (Meeting * app_state Meeting) :=
  let table := <[new_id := db_meeting]> (db st) in
  let idx := index_meeting (keyword_indexer st) new_id (raw_notes db_meeting) in
  Returns (db_meeting, {| db := table; keyword_indexer := idx |}).


(** [delete_meeting] *)
Definition delete_meeting (st : app_state Meeting) (meeting_id : Z)
    : response (app_state Meeting) :=
  match db st !! meeting_id with
  | None => HTTPException 404
  | Some db_meeting =>
      match remove_meeting (keyword_indexer st) meeting_id with
      | None => HTTPException 500
      | Some idx =>
          Returns {| db := delete meeting_id (db st); keyword_indexer := idx |}
      end
  end.

(** The loop of [ask_ai] over the entries found: an entry whose meeting is
    in the table gives the id, the title and the notes of the row. *)
Definition relevant_meetings (st : app_state Meeting)
    (relevant_notes : list note_hit) : list (Z * string * string) :=
  omap (λ note_data,
          match db st !! hit_meeting_id note_data with
          | Some meeting =>
              Some (hit_meeting_id note_data, title meeting, raw_notes meeting)
          | None => None
          end) relevant_notes.

(** [ask_ai] *)
Definition ask_ai (st : app_state Meeting) (question : string)
    : response ask_ai_result :=
  let relevant_notes := get_relevant_notes (keyword_indexer st) question 5 in
  match relevant_notes with
  | [] =>
      Returns
        {| ans_question := question;
           ans_answer :=
             "I couldn't find any relevant meetings to answer your question.";
           ans_relevant_meetings := [] |}
  | _ =>
      let found := relevant_meetings st relevant_notes in
      let answer := answer_question question found in
      Returns
        {| ans_question := question;
           ans_answer := answer;
           ans_relevant_meetings := (λ m, (m.1.1, m.1.2)) <$> found |}
  end.

(** The index holds the notes of the rows of the table, and its postings
    are those of these notes. *)
Definition in_sync (st : app_state Meeting) : Prop :=
  meeting_notes (keyword_indexer st) = raw_notes <$> db st
  ∧ postings_exact (keyword_indexer st).

End Handlers.

(** ** Tag generation of [agent/meeting_agent.py] *)

Module Str.

(** [s.lstrip()] *)
Fixpoint lstrip (s : list ascii) : list ascii :=
  match s with
  | c :: s' => if Text.is_space c then lstrip s' else s
  | [] => []
  end.

(** [s.rstrip()] *)
Definition rstrip (s : list ascii) : list ascii :=
  reverse (lstrip (reverse s)).

(** [s.strip()] *)
Definition strip (s : list ascii) : list ascii := lstrip (rstrip s).

(** [s.split(sep)] for a separator of one character: one piece more than
    there are separators, empty pieces kept. *)
Fixpoint split (sep : ascii) (s : list ascii) : list (list ascii) :=
  match s with
  | [] => [[]]
  | c :: s' =>
      if decide (c = sep) then [] :: split sep s'
      else match split sep s' with
           | piece :: pieces => (c :: piece) :: pieces
           | [] => [[c]]
           end
  end.

(** The line feed of the prompt texts. *)
Definition nl : string := String (ascii_of_nat 10) EmptyString.

End Str.

(** What [self.client.models.generate_content] does with a prompt: it
    raises, or returns a response whose [text] is [None] or a string. *)
Inductive llm_reply : Type :=
| Raised
| Reply (text : option string).

Section Agent.
Context (generate_content : string → llm_reply).

(** The prompt of [_generate_tags]: at most 300 characters of the summary
    and 500 of the notes. *)
Definition tags_prompt (notes summary : string) : string :=
  "Generate 3-5 concise tags that capture the main topics discussed in this meeting."
  +:+ Str.nl +:+ "Return tags as a comma-separated list."
  +:+ Str.nl +:+ Str.nl +:+ "Summary: " +:+ substring 0 300 summary
  +:+ Str.nl +:+ Str.nl +:+ "Notes: " +:+ substring 0 500 notes
  +:+ Str.nl +:+ Str.nl +:+ "Tags:".

(** [MeetingAgent._generate_tags] *)
Definition _generate_tags (notes summary : string) : list string :=
  let prompt := tags_prompt notes summary in
  match generate_content prompt with
  | Raised => []
  | Reply None => []
  | Reply (Some EmptyString) => []
  | Reply (Some text) =>
      let tags_text := Str.strip (list_ascii_of_string text) in
      let tags :=
        (λ tag, string_of_list_ascii (Str.strip tag))
          <$> Str.split "," tags_text in
      take 5 tags
  end.

End Agent.

(** ** States of the examples *)

Section ExampleStates.
#[local] Existing Instance ascii_pystr.

(** Two meetings, the second with one token more. *)
Definition two_meetings : KeywordIndexer :=
  index_meeting (index_meeting new_indexer 1 "alpha beta") 2 "alpha beta gamma".

(** One meeting. *)
Definition one_meeting : KeywordIndexer :=
  index_meeting new_indexer 1 "alpha beta".

(** One meeting whose notes have no token: both words are too short. *)
Definition tokenless_meeting : KeywordIndexer :=
  index_meeting new_indexer 7 "to do".

(** Four meetings with the same notes, indexed in the order 9, 1, 2, 3. *)
Definition four_meetings : KeywordIndexer :=
  index_meeting
    (index_meeting
       (index_meeting (index_meeting new_indexer 9 "alpha") 1 "alpha")
       2 "alpha")
    3 "alpha".

(** A table with one row, a row being its notes, and the index of it. *)
Definition sample_app : app_state string :=
  mkApp {[1%Z := "alpha beta"%string]} one_meeting.

End ExampleStates.

(** The order in which CPython iterates the set built by adding 9, 1, 2,
    3: in its table of 8 slots 9 takes slot 1, so that 1 goes to slot 6. *)
Definition order_before : SetIter := order_listing [9; 2; 3; 1]%Z.

(** The order of the same set after 5 was added, which makes the table
    grow to 32 slots, every key in the slot of its own value, and then
    discarded. *)
Definition order_after : SetIter := order_listing [1; 2; 3; 5; 9]%Z.


(** An agent that answers with the notes of the first meeting it gets. *)
Definition first_notes (question : string)
    (meetings : list (Z * string * string)) : string :=
  match meetings with
  | m :: _ => m.2
  | [] => EmptyString
  end.

(** A client whose reply is a fixed text. *)
Definition fixed_reply (text : string) (prompt : string) : llm_reply :=
  Reply (Some text).

(** * Properties *)

(** ** The ASCII data *)

Module Ascii7Facts.

Lemma lower_char_idem c :
  Ascii7.lower_char (Ascii7.lower_char c) = Ascii7.lower_char c.
Proof. destruct c as [[] [] [] [] [] [] [] []]; vm_compute; reflexivity. Qed.

Lemma lower_char_word c : Ascii7.is_word (Ascii7.lower_char c) = Ascii7.is_word c.
Proof. destruct c as [[] [] [] [] [] [] [] []]; vm_compute; reflexivity. Qed.

Lemma lower_char_seven_bit c :
  Ascii7.seven_bit c → Ascii7.seven_bit (Ascii7.lower_char c).
Proof.
  unfold Ascii7.seven_bit.
  destruct c as [[] [] [] [] [] [] [] []]; vm_compute; lia.
Qed.

End Ascii7Facts.

(** ** Regular-expression scan and maximal runs *)

Module TextFacts.

Section ScanFacts.
Context {char : Type} (is_word : char → bool).

#[local] Abbreviation is_word_at := (Text.is_word_at is_word).
#[local] Abbreviation word_boundary := (Text.word_boundary is_word).
#[local] Abbreviation word_prefix_len := (Text.word_prefix_len is_word).
#[local] Abbreviation backtrack_end := (Text.backtrack_end is_word).
#[local] Abbreviation match_at := (Text.match_at is_word).
#[local] Abbreviation findall_from := (Text.findall_from is_word).
#[local] Abbreviation findall := (Text.findall is_word).
#[local] Abbreviation maximal_runs := (Text.maximal_runs is_word).

Lemma word_prefix_len_word s :
  Forall (λ c, is_word c = true) (take (word_prefix_len s) s).
Proof.
  induction s as [|c s IH]; simpl; [constructor|].
  destruct (is_word c) eqn:Hc; simpl; [|constructor].
  by constructor.
Qed.

Lemma word_prefix_len_stop s :
  is_word_at (s !! word_prefix_len s) = false.
Proof.
  induction s as [|c s IH]; simpl; [done|].
  by destruct (is_word c) eqn:Hc.
Qed.

Lemma word_prefix_len_le s : word_prefix_len s ≤ length s.
Proof.
  induction s as [|c s IH]; simpl; [lia|].
  destruct (is_word c); simpl; lia.
Qed.

(** The greedy candidate already ends at a boundary: no backtracking. *)
Lemma backtrack_end_greedy s n :
  word_prefix_len s = S n → backtrack_end s (S n) = Some (S n).
Proof.
  intros Hn. simpl.
  assert (Hlast : is_word_at (s !! n) = true).
  { pose proof (word_prefix_len_word s) as Hw. rewrite Hn in Hw.
    pose proof (word_prefix_len_le s) as Hle. rewrite Hn in Hle.
    destruct (s !! n) as [c|] eqn:Hc.
    - simpl. rewrite Forall_forall in Hw. apply Hw.
      apply list_elem_of_lookup. exists n.
      rewrite lookup_take_lt; [done | lia].
    - apply lookup_ge_None in Hc. lia. }
  pose proof (word_prefix_len_stop s) as Hstop. rewrite Hn in Hstop.
  unfold word_boundary. by rewrite Hlast, Hstop.
Qed.

Lemma match_at_word prev c s :
  is_word_at prev = false → is_word c = true →
  match_at prev (c :: s) = Some (S (word_prefix_len s)).
Proof.
  intros Hp Hc. unfold match_at, word_boundary. simpl head.
  rewrite Hp. simpl is_word_at. rewrite Hc. simpl xorb. cbv iota.
  assert (Hn : word_prefix_len (c :: s) = S (word_prefix_len s))
    by (simpl; by rewrite Hc).
  rewrite Hn. by apply backtrack_end_greedy.
Qed.

Lemma match_at_nonword prev c s :
  is_word c = false → match_at prev (c :: s) = None.
Proof.
  intros Hc. unfold match_at. simpl word_prefix_len. rewrite Hc. simpl.
  by destruct (word_boundary prev (Some c)).
Qed.

(** Passing over the characters of a match does not emit anything. *)
Lemma findall_from_skip k s prev :
  ∃ prev', findall_from prev k s = findall_from prev' 0 (drop k s).
Proof.
  revert s prev. induction k as [|k IH]; intros s prev.
  - exists prev. by rewrite drop_0.
  - destruct s as [|c s]; simpl.
    + by exists prev.
    + apply IH.
Qed.

Lemma maximal_runs_sep c s ws :
  is_word c = false → maximal_runs s ws → maximal_runs (c :: s) ws.
Proof.
  intros Hc Hs. destruct Hs as [sep Hsep | sep w rest ws Hsep Hw Hww Hr Hrest].
  - constructor. by constructor.
  - change (c :: sep ++ w ++ rest) with ((c :: sep) ++ w ++ rest).
    constructor; try done. by constructor.
Qed.

Lemma findall_from_runs_bounded n :
  ∀ s prev, length s ≤ n →
    is_word_at prev = false ∨ is_word_at (head s) = false →
    maximal_runs s (findall_from prev 0 s).
Proof.
  induction n as [|n IH]; intros s prev Hlen Hstart.
  - destruct s; [|simpl in Hlen; lia]. simpl. by do 2 constructor.
  - destruct s as [|c s]; [simpl; by do 2 constructor|].
    simpl in Hlen. destruct (is_word c) eqn:Hc.
    + destruct Hstart as [Hp | Hh]; [|simpl in Hh; congruence].
      unfold findall_from; fold findall_from.
      rewrite (match_at_word prev c s Hp Hc).
      replace (S (word_prefix_len s) - 1) with (word_prefix_len s) by lia.
      destruct (findall_from_skip (word_prefix_len s) s (Some c))
        as [prev' ->].
      change (take (S (word_prefix_len s)) (c :: s))
        with (c :: take (word_prefix_len s) s).
      assert (Hsplit : c :: s =
                [] ++ (c :: take (word_prefix_len s) s)
                   ++ drop (word_prefix_len s) s)
        by (simpl; by rewrite take_drop).
      rewrite Hsplit at 1.
      apply (Text.runs_next is_word [] (c :: take (word_prefix_len s) s)
               (drop (word_prefix_len s) s)).
      * constructor.
      * done.
      * constructor; [done | apply word_prefix_len_word].
      * rewrite head_lookup, lookup_drop, Nat.add_0_r.
        apply word_prefix_len_stop.
      * apply IH.
        -- rewrite length_drop. lia.
        -- right. rewrite head_lookup, lookup_drop, Nat.add_0_r.
           apply word_prefix_len_stop.
    + unfold findall_from; fold findall_from.
      rewrite (match_at_nonword prev c s Hc).
      apply maximal_runs_sep; [done|].
      apply IH; [lia | by left].
Qed.

(** [findall] lists the maximal runs of word characters. *)
Lemma findall_maximal_runs s : maximal_runs s (findall s).
Proof. apply (findall_from_runs_bounded (length s)); [lia | by left]. Qed.

(** A text splits in one way only into a longest prefix of a class of
    characters and a remainder. *)
Lemma span_unique (p : char → bool) a b a' b' :
  a ++ b = a' ++ b' →
  Forall (λ c, p c = true) a → Forall (λ c, p c = true) a' →
  from_option p false (head b) = false →
  from_option p false (head b') = false →
  a = a' ∧ b = b'.
Proof.
  revert a'. induction a as [|x a IH]; intros a' Heq Ha Ha' Hb Hb'.
  - destruct a' as [|y a']; [done|].
    simpl in Heq. subst b. simpl in Hb.
    apply Forall_cons in Ha' as [Hy _]. congruence.
  - destruct a' as [|y a'].
    + simpl in Heq. subst b'. simpl in Hb'.
      apply Forall_cons in Ha as [Hx _]. congruence.
    + simpl in Heq. injection Heq as -> Heq.
      apply Forall_cons in Ha as [_ Ha]. apply Forall_cons in Ha' as [_ Ha'].
      destruct (IH a' Heq Ha Ha' Hb Hb') as [-> ->]. done.
Qed.

Lemma nonword_negb sep :
  Forall (λ c, is_word c = false) sep →
  Forall (λ c, negb (is_word c) = true) sep.
Proof. intros Hsep. eapply Forall_impl; [exact Hsep|]. by intros c ->. Qed.

Lemma head_word_app w rest :
  w ≠ [] → Forall (λ c, is_word c = true) w →
  from_option (λ c, negb (is_word c)) false (head (w ++ rest)) = false.
Proof.
  intros Hne Hw. destruct w as [|c w]; [done|].
  apply Forall_cons in Hw as [Hc _]. simpl. by rewrite Hc.
Qed.

(** The maximal runs of a text are determined by the text. *)
Lemma maximal_runs_unique s ws ws' :
  maximal_runs s ws → maximal_runs s ws' → ws = ws'.
Proof.
  intros Hs. revert ws'.
  induction Hs as [sep Hsep | sep w rest ws Hsep Hne Hw Hr Hrest IH];
    intros ws' Hs'.
  - inversion Hs' as [sep' Hsep' | sep' w' rest' ws2 Hsep' Hne' Hw' Hr' Hrest' Heq];
      [done|]. subst.
    exfalso. destruct w' as [|c w']; [done|].
    apply Forall_cons in Hw' as [Hc _].
    rewrite Forall_forall in Hsep.
    assert (is_word c = false) by (apply Hsep; set_solver).
    congruence.
  - inversion Hs' as [sep' Hsep' Heq | sep' w' rest' ws2 Hsep' Hne' Hw' Hr' Hrest' Heq].
    + subst. exfalso. destruct w as [|c w]; [done|].
      apply Forall_cons in Hw as [Hc _].
      rewrite Forall_forall in Hsep'.
      assert (is_word c = false) by (apply Hsep'; set_solver).
      congruence.
    + subst.
      destruct (span_unique (λ c, negb (is_word c)) sep' (w' ++ rest')
                  sep (w ++ rest)) as [-> Heq2];
        auto using nonword_negb, head_word_app.
      destruct (span_unique is_word w' rest' w rest) as [-> ->]; auto.
      f_equal. by apply IH.
Qed.

Lemma findall_no_word s :
  Forall (λ c, is_word c = false) s → findall s = [].
Proof.
  intros Hs. symmetry.
  apply (maximal_runs_unique s); [by constructor | apply findall_maximal_runs].
Qed.

(** Every run is a non-empty word of characters of the text. *)
Lemma maximal_runs_words s ws :
  maximal_runs s ws →
  Forall (λ w, w ≠ [] ∧ Forall (λ c, is_word c = true ∧ c ∈ s) w) ws.
Proof.
  induction 1 as [sep Hsep | sep w rest ws Hsep Hne Hw Hr Hrest IH];
    [constructor|]. constructor.
  - split; [done|]. rewrite Forall_forall in Hw. apply Forall_forall.
    intros c Hc. split; [by apply Hw | set_solver].
  - eapply Forall_impl; [exact IH|]. intros w' [Hne' Hw']. split; [done|].
    eapply Forall_impl; [exact Hw'|]. intros c [? ?]. split; [done | set_solver].
Qed.

(** A word on its own is its one run. *)
Lemma findall_word w :
  w ≠ [] → Forall (λ c, is_word c = true) w → findall w = [w].
Proof.
  intros Hne Hw. symmetry.
  apply (maximal_runs_unique w); [|apply findall_maximal_runs].
  rewrite <- (app_nil_r w) at 1.
  apply (Text.runs_next is_word [] w [] []); try done. by constructor.
Qed.

Lemma maximal_runs_sep_app seps s ws :
  Forall (λ c, is_word c = false) seps →
  maximal_runs s ws → maximal_runs (seps ++ s) ws.
Proof.
  induction 1 as [|c seps Hc _ IH]; intros Hs; simpl; [done|].
  apply maximal_runs_sep; auto.
Qed.

(** The runs of two texts joined by a separator are the runs of the first
    followed by the runs of the second. *)
Lemma maximal_runs_app a la sep b lb :
  sep ≠ [] → Forall (λ c, is_word c = false) sep →
  maximal_runs a la → maximal_runs b lb →
  maximal_runs (a ++ sep ++ b) (la ++ lb).
Proof.
  intros Hne Hsep Ha Hb.
  induction Ha as [sepa Hsepa | sepa w rest ws Hsepa Hw Hww Hr Hrest IH].
  - simpl. apply maximal_runs_sep_app; [done|].
    by apply maximal_runs_sep_app.
  - rewrite <- !app_assoc. simpl. apply Text.runs_next; try done.
    destruct rest as [|c rest]; [|done]. simpl.
    destruct sep as [|c sep]; [done|]. simpl.
    by apply Forall_cons in Hsep as [? _].
Qed.

Lemma findall_app a sep b :
  sep ≠ [] → Forall (λ c, is_word c = false) sep →
  findall (a ++ sep ++ b) = findall a ++ findall b.
Proof.
  intros Hne Hsep.
  apply (maximal_runs_unique (a ++ sep ++ b)); [apply findall_maximal_runs|].
  apply maximal_runs_app; auto using findall_maximal_runs.
Qed.

End ScanFacts.

(** The scan of the image of a text under a map of the characters that
    respects the word class on the characters of the text. *)
Lemma maximal_runs_fmap {A B} (f : A → B) (p : B → bool) (q : A → bool)
    (s : list A) (ws : list (list A)) :
  (∀ a, a ∈ s → p (f a) = q a) →
  Text.maximal_runs q s ws →
  Text.maximal_runs p (f <$> s) ((λ w : list A, f <$> w) <$> ws).
Proof.
  intros Hpq Hs.
  induction Hs as [sep Hsep | sep w rest ws Hsep Hne Hw Hr Hrest IH].
  - constructor. apply Forall_fmap. rewrite Forall_forall in Hsep.
    apply Forall_forall. intros a Ha. simpl. rewrite Hpq by done. by apply Hsep.
  - rewrite !fmap_app. cbn [fmap list_fmap]. constructor.
    + apply Forall_fmap. rewrite Forall_forall in Hsep.
      apply Forall_forall. intros a Ha. simpl.
      rewrite Hpq by set_solver. by apply Hsep.
    + by destruct w.
    + apply Forall_fmap. rewrite Forall_forall in Hw.
      apply Forall_forall. intros a Ha. simpl.
      rewrite Hpq by set_solver. by apply Hw.
    + destruct rest as [|a rest]; [done|]. simpl in *.
      rewrite Hpq by set_solver. done.
    + apply IH. intros a Ha. apply Hpq. set_solver.
Qed.

Lemma findall_fmap {A B} (f : A → B) (p : B → bool) (q : A → bool)
    (s : list A) :
  (∀ a, a ∈ s → p (f a) = q a) →
  Text.findall p (f <$> s) = (λ w : list A, f <$> w) <$> Text.findall q s.
Proof.
  intros Hpq. apply (maximal_runs_unique p (f <$> s));
    [apply findall_maximal_runs|].
  apply (maximal_runs_fmap f p q); [done | apply findall_maximal_runs].
Qed.

End TextFacts.

(** ** The tokenizer *)

Section TokenizerFacts.
Context `{PyStr}.

Lemma tokenize_unfold text :
  _tokenize text =
  text_of
    <$> filter (λ w, 2 < length w)
          (Text.findall py_is_word (py_lower (chars text))).
Proof. reflexivity. Qed.

Lemma chars_of_ascii text :
  Ascii7.is_ascii text → chars text = of_ascii <$> list_ascii_of_string text.
Proof.
  intros Hasc. rewrite <- (string_of_list_ascii_of_string text) at 1.
  by apply chars_ascii.
Qed.

Lemma lower_of_ascii text :
  Ascii7.is_ascii text →
  py_lower (chars text)
  = of_ascii <$> (Ascii7.lower_char <$> list_ascii_of_string text).
Proof. intros Hasc. rewrite chars_of_ascii by done. by apply py_lower_ascii. Qed.

Lemma lowered_seven_bit text :
  Ascii7.is_ascii text →
  Forall Ascii7.seven_bit (Ascii7.lower_char <$> list_ascii_of_string text).
Proof.
  intros Hasc. apply Forall_fmap. eapply Forall_impl; [exact Hasc|].
  apply Ascii7Facts.lower_char_seven_bit.
Qed.

(** On ASCII text the tokens are those the ASCII data gives. *)
Lemma tokenize_ascii_runs text :
  Ascii7.is_ascii text →
  _tokenize text =
  string_of_list_ascii
    <$> filter (λ w, 2 < length w)
          (Text.findall Ascii7.is_word
             (Ascii7.lower_char <$> list_ascii_of_string text)).
Proof.
  intros Hasc. rewrite tokenize_unfold, lower_of_ascii by done.
  pose proof (lowered_seven_bit text Hasc) as Hlow.
  set (l := Ascii7.lower_char <$> list_ascii_of_string text) in *.
  rewrite (TextFacts.findall_fmap of_ascii py_is_word Ascii7.is_word).
  2:{ intros a Ha. apply py_is_word_ascii.
      rewrite Forall_forall in Hlow. by apply Hlow. }
  pose proof (TextFacts.maximal_runs_words Ascii7.is_word l _
                (TextFacts.findall_maximal_runs Ascii7.is_word l)) as Hruns.
  induction Hruns as [|w ws [_ Hw] _ IH]; [done|].
  cbn [fmap list_fmap]. rewrite !filter_cons, length_fmap.
  case_decide; [|done]. cbn [fmap list_fmap]. rewrite IH. f_equal.
  apply text_of_ascii. eapply Forall_impl; [exact Hw|].
  intros c [_ Hc]. rewrite Forall_forall in Hlow. by apply Hlow.
Qed.

(** C4: [_tokenize] is a total function of its argument; its result is the
    list of the maximal runs of word characters of the lowercased text (the
    one list the text determines, in the order of the text, a repeated run
    repeated), the runs longer than 2 characters kept; a text of whitespace
    only has no token, and neither has the empty text. On a text of ASCII
    characters the word characters are the letters, the digits and the
    underscore, and lowercasing turns the capital letters into small ones
    and leaves the rest. *)
Theorem tokenize_maximal_runs (text : string) :
  (∃ runs,
      Text.maximal_runs py_is_word (py_lower (chars text)) runs
      ∧ (∀ runs',
            Text.maximal_runs py_is_word (py_lower (chars text)) runs' →
            runs' = runs)
      ∧ _tokenize text = text_of <$> filter (λ w, 2 < length w) runs)
  ∧ (Forall (λ c, py_is_space c = true) (chars text) → _tokenize text = [])
  ∧ _tokenize EmptyString = []
  ∧ (Ascii7.is_ascii text →
     ∃ runs,
       Text.maximal_runs Ascii7.is_word
         (Ascii7.lower_char <$> list_ascii_of_string text) runs
       ∧ _tokenize text
         = string_of_list_ascii <$> filter (λ w, 2 < length w) runs).
Proof.
  assert (Hsp : ∀ t, Forall (λ c, py_is_space c = true) (chars t) →
                     _tokenize t = []).
  { intros t Ht. rewrite tokenize_unfold, (py_lower_space _ Ht).
    rewrite TextFacts.findall_no_word; [done|].
    eapply Forall_impl; [exact Ht|]. apply py_space_not_word. }
  split_and!.
  - exists (Text.findall py_is_word (py_lower (chars text))).
    split; [apply TextFacts.findall_maximal_runs|]. split; [|done].
    intros runs' Hr. eapply TextFacts.maximal_runs_unique; [exact Hr|].
    apply TextFacts.findall_maximal_runs.
  - apply Hsp.
  - apply Hsp. rewrite (chars_ascii []) by constructor. constructor.
  - intros Hasc. eexists. split; [apply TextFacts.findall_maximal_runs|].
    by apply tokenize_ascii_runs.
Qed.

End TokenizerFacts.

(** ** Posting sets under the two mutations *)

Section IndexFacts.
Context `{PyStr}.

Lemma elem_posting_insert idx w s w' (d : Z) :
  d ∈ posting (<[w := s]> idx) w' ↔
  (w = w' ∧ d ∈ s) ∨ (w ≠ w' ∧ d ∈ posting idx w').
Proof.
  unfold posting. destruct (decide (w = w')) as [->|Hne].
  - rewrite lookup_insert_eq. simpl. naive_solver.
  - rewrite lookup_insert_ne by done. naive_solver.
Qed.

Lemma elem_posting_add_fold m ws idx w (d : Z) :
  d ∈ posting (foldl (add_posting m) idx ws) w ↔
  d ∈ posting idx w ∨ (d = m ∧ w ∈ ws).
Proof.
  revert idx. induction ws as [|x ws IH]; intros idx; simpl.
  - set_solver.
  - rewrite IH. unfold add_posting. rewrite elem_posting_insert.
    destruct (decide (x = w)) as [->|Hne]; set_solver.
Qed.

Lemma elem_posting_discard_fold m ws idx w (d : Z) :
  d ∈ posting (foldl (discard_posting m) idx ws) w ↔
  d ∈ posting idx w ∧ ¬ (d = m ∧ w ∈ ws).
Proof.
  revert idx. induction ws as [|x ws IH]; intros idx; simpl.
  - set_solver.
  - rewrite IH. unfold discard_posting. rewrite elem_posting_insert.
    destruct (decide (x = w)) as [->|Hne]; set_solver.
Qed.

Lemma posted_posting self doc :
  posted self doc ↔ ∃ w, doc ∈ posting (index self) w.
Proof.
  unfold posted, posting. split.
  - intros (w & s & Hs & Hd). exists w. by rewrite Hs.
  - intros (w & Hd). destruct (index self !! w) as [s|] eqn:Hs; simpl in Hd.
    + by exists w, s.
    + set_solver.
Qed.

(** ** [remove_meeting] never leaves by an exception *)

Lemma remove_meeting_stored self doc notes :
  meeting_notes self !! doc = Some notes →
  remove_meeting self doc =
  Some {| index := foldl (discard_posting doc) (index self) (_tokenize notes);
          meeting_notes := delete doc (meeting_notes self) |}.
Proof.
  intros Hn. unfold remove_meeting, dict_getitem, dict_delitem.
  rewrite decide_True by (apply elem_of_dom; eauto).
  rewrite Hn. done.
Qed.

Lemma remove_meeting_missing self doc :
  meeting_notes self !! doc = None → remove_meeting self doc = Some self.
Proof.
  intros Hn. unfold remove_meeting.
  rewrite decide_False; [done|].
  rewrite elem_of_dom, Hn. by intros [? ?].
Qed.

(** C7: [remove_meeting] returns for every state and every id, and for an
    id that is not stored it returns the state it was given, both mappings
    as they were. The other three operations have no step that can raise:
    they are total functions of the state and their arguments. *)
Theorem remove_meeting_total_noop (self : KeywordIndexer) (doc : Z) :
  (∃ self', remove_meeting self doc = Some self')
  ∧ (meeting_notes self !! doc = None →
     remove_meeting self doc = Some self
     ∧ ∀ self', remove_meeting self doc = Some self' →
         index self' = index self ∧ meeting_notes self' = meeting_notes self).
Proof.
  split.
  - destruct (meeting_notes self !! doc) as [notes|] eqn:Hn.
    + eexists. by apply remove_meeting_stored.
    + exists self. by apply remove_meeting_missing.
  - intros Hn. rewrite (remove_meeting_missing self doc Hn).
    split; [done|]. by intros self' [= <-].
Qed.

(** ** Frame: the other documents *)

Lemma index_meeting_frame self x text y :
  x ≠ y →
  meeting_notes (index_meeting self x text) !! y = meeting_notes self !! y
  ∧ ∀ w, y ∈ posting (index (index_meeting self x text)) w ↔
         y ∈ posting (index self) w.
Proof.
  intros Hne. split.
  - simpl. by rewrite lookup_insert_ne.
  - intros w. simpl. rewrite elem_posting_add_fold. naive_solver.
Qed.

Lemma remove_meeting_frame self x self' y :
  x ≠ y → remove_meeting self x = Some self' →
  meeting_notes self' !! y = meeting_notes self !! y
  ∧ ∀ w, y ∈ posting (index self') w ↔ y ∈ posting (index self) w.
Proof.
  intros Hne Hrm.
  destruct (meeting_notes self !! x) as [notes|] eqn:Hn.
  - rewrite (remove_meeting_stored _ _ _ Hn) in Hrm.
    injection Hrm as <-. simpl. split.
    + by rewrite lookup_delete_ne.
    + intros w. rewrite elem_posting_discard_fold. naive_solver.
  - rewrite (remove_meeting_missing _ _ Hn) in Hrm. by injection Hrm as <-.
Qed.

(** ** The lockstep invariant *)

Lemma postings_exact_new : postings_exact new_indexer.
Proof.
  intros w doc. unfold posting. simpl. rewrite lookup_empty. simpl.
  split; [set_solver|]. intros (notes & Hn & _). by rewrite lookup_empty in Hn.
Qed.

Lemma postings_exact_index self doc notes :
  postings_exact self → meeting_notes self !! doc = None →
  postings_exact (index_meeting self doc notes).
Proof.
  intros Hinv Hfresh w d. simpl. rewrite elem_posting_add_fold, (Hinv w d).
  split.
  - intros [(n & Hn & Hw) | [-> Hw]].
    + exists n. split; [|done]. rewrite lookup_insert_ne; [done|].
      intros ->. congruence.
    + exists notes. by rewrite lookup_insert_eq.
  - intros (n & Hn & Hw). destruct (decide (doc = d)) as [->|Hne].
    + rewrite lookup_insert_eq in Hn. injection Hn as <-. by right.
    + rewrite lookup_insert_ne in Hn by done. left. eauto.
Qed.

Lemma postings_exact_remove self doc self' :
  postings_exact self → remove_meeting self doc = Some self' →
  postings_exact self'.
Proof.
  intros Hinv Hrm.
  destruct (meeting_notes self !! doc) as [notes|] eqn:Hn.
  - rewrite (remove_meeting_stored _ _ _ Hn) in Hrm. injection Hrm as <-.
    intros w d. simpl. rewrite elem_posting_discard_fold, (Hinv w d). split.
    + intros [(n & Hd & Hw) Hnot]. exists n. split; [|done].
      rewrite lookup_delete_ne; [done|]. intros ->.
      apply Hnot. split; [done|]. congruence.
    + intros (n & Hd & Hw). destruct (decide (doc = d)) as [->|Hne].
      * by rewrite lookup_delete_eq in Hd.
      * rewrite lookup_delete_ne in Hd by done. split; [eauto|].
        intros [-> _]. done.
  - rewrite (remove_meeting_missing _ _ Hn) in Hrm. by injection Hrm as <-.
Qed.

Lemma reachable_postings_exact self : reachable self → postings_exact self.
Proof.
  induction 1 as [| self doc notes _ IH Hfresh | self doc self' _ IH Hrm].
  - apply postings_exact_new.
  - by apply postings_exact_index.
  - by eapply postings_exact_remove.
Qed.

Lemma postings_exact_lockstep self : postings_exact self → lockstep self.
Proof.
  intros Hinv. split.
  - intros doc. rewrite posted_posting. split.
    + intros (w & Hw). apply Hinv in Hw as (n & Hn & Hw).
      exists n. split; [done|]. intros Hnil. rewrite Hnil in Hw. set_solver.
    + intros (n & Hn & Hne). destruct (_tokenize n) as [|w ws] eqn:Htok; [done|].
      exists w. apply Hinv. exists n. split; [done|]. rewrite Htok. set_solver.
  - intros doc notes Hn w. rewrite (Hinv w doc). split.
    + intros (n & Hn' & Hw). congruence.
    + eauto.
Qed.

(** C3, as the code keeps it: in every state reached with the caller
    discipline, a posted id is stored, a stored document is posted exactly
    when its text has at least one token, and the tokens that post a stored
    document are the tokens of its text. *)
Theorem reachable_lockstep (self : KeywordIndexer) :
  reachable self → lockstep self.
Proof.
  intros Hr. by apply postings_exact_lockstep, reachable_postings_exact.
Qed.

End IndexFacts.

(** ** The score table *)

Lemma bump_keys scores m :
  (bump scores m).*1 = if decide (m ∈ scores.*1) then scores.*1
                       else scores.*1 ++ [m].
Proof.
  induction scores as [|[k n] scores IH].
  - cbn. case_decide as Hin; [by apply elem_of_nil in Hin | done].
  - cbn [bump]. destruct (decide (k = m)) as [->|Hne].
    + cbn. rewrite decide_True by (left). done.
    + cbn [fmap list_fmap fst]. rewrite IH.
      destruct (decide (m ∈ scores.*1)) as [Hin|Hin].
      * rewrite decide_True by (by right). done.
      * rewrite decide_False; [done|].
        intros [?|?]%elem_of_cons; [congruence | done].
Qed.

Lemma bump_score_in scores m d :
  score_in (bump scores m) d =
  score_in scores d + (if decide (m = d) then 1 else 0).
Proof.
  induction scores as [|[k n] scores IH]; simpl.
  - destruct (decide (m = d)); done.
  - destruct (decide (k = m)) as [->|Hne]; simpl.
    + destruct (decide (m = d)); lia.
    + destruct (decide (k = d)) as [->|Hkd].
      * rewrite decide_False by done. lia.
      * apply IH.
Qed.

Lemma bump_ok scores m : scores_ok scores → scores_ok (bump scores m).
Proof.
  intros [Hnd Hpos]. split.
  - rewrite bump_keys. destruct (decide (m ∈ scores.*1)); [done|].
    apply NoDup_app. split_and!; [done | set_solver | apply NoDup_singleton].
  - clear Hnd. induction scores as [|[k n] scores IH]; simpl.
    + repeat constructor.
    + apply Forall_cons in Hpos as [Hn Hpos].
      destruct (decide (k = m)); constructor; simpl in *; auto with lia.
Qed.

Lemma foldl_bump_ok scores l : scores_ok scores → scores_ok (foldl bump scores l).
Proof.
  revert scores. induction l as [|m l IH]; intros scores Hok; simpl; [done|].
  by apply IH, bump_ok.
Qed.

Lemma foldl_bump_score_in scores l d :
  NoDup l →
  score_in (foldl bump scores l) d =
  score_in scores d + (if decide (d ∈ l) then 1 else 0).
Proof.
  intros Hnd. revert scores.
  induction Hnd as [|m l Hm Hnd IH]; intros scores; cbn [foldl].
  - case_decide as Hin; [by apply elem_of_nil in Hin | lia].
  - rewrite IH, bump_score_in.
    repeat case_decide; subst; try lia; exfalso; set_solver.
Qed.

(** In a well-formed table the entries are the positive scores. *)
Lemma elem_of_scores scores d n :
  scores_ok scores → (d, n) ∈ scores ↔ score_in scores d = n ∧ 0 < n.
Proof.
  intros [Hnd Hpos]. induction scores as [|[k m] scores IH]; simpl.
  - split; [by intros ?%elem_of_nil | lia].
  - apply NoDup_cons in Hnd as [Hk Hnd]. apply Forall_cons in Hpos as [Hm Hpos].
    simpl in Hm. rewrite elem_of_cons, (IH Hnd Hpos).
    destruct (decide (k = d)) as [->|Hne].
    + split.
      * intros [[= ->] | [Hs Hn]]; [done|].
        exfalso. apply Hk. clear -Hs Hn.
        induction scores as [|[k' m'] scores IH]; simpl in *; [lia|].
        destruct (decide (k' = d)) as [->|]; set_solver.
      * intros [-> _]. by left.
    + split.
      * intros [[= -> ->] | ?]; done.
      * intros ?. by right.
Qed.

(** ** Sorting and slicing *)

Lemma insert_desc_perm x l : insert_desc x l ≡ₚ x :: l.
Proof.
  induction l as [|y l IH]; simpl; [done|].
  destruct (x.2 <? y.2); [|done].
  rewrite IH. apply Permutation_swap.
Qed.

Lemma sorted_desc_perm l : sorted_desc l ≡ₚ l.
Proof.
  induction l as [|x l IH]; simpl; [done|].
  fold (sorted_desc l). by rewrite insert_desc_perm, IH.
Qed.

Lemma insert_desc_sorted x l :
  StronglySorted by_score_desc l → StronglySorted by_score_desc (insert_desc x l).
Proof.
  induction 1 as [|y l Hl IH Hy]; simpl.
  - repeat constructor.
  - destruct (Nat.ltb_spec x.2 y.2) as [Hlt|Hge].
    + constructor; [done|].
      rewrite insert_desc_perm. constructor; [|done].
      unfold by_score_desc. lia.
    + constructor; [by constructor|].
      constructor; [done|].
      eapply Forall_impl; [exact Hy|]. unfold by_score_desc. intros; simpl in *; lia.
Qed.

Lemma sorted_desc_sorted l : StronglySorted by_score_desc (sorted_desc l).
Proof.
  induction l as [|x l IH]; simpl; [constructor|].
  by apply insert_desc_sorted.
Qed.

Lemma slice_to_nonneg {A} (l : list A) (limit : Z) :
  (0 ≤ limit)%Z → slice_to l limit = take (Z.to_nat limit) l.
Proof. intros Hl. unfold slice_to. by rewrite (proj2 (Z.ltb_ge _ _) Hl). Qed.

Lemma slice_to_negative {A} (l : list A) (k : nat) :
  0 < k → slice_to l (- Z.of_nat k) = take (length l - k) l.
Proof.
  intros Hk. unfold slice_to.
  rewrite (proj2 (Z.ltb_lt _ _)) by lia. f_equal. lia.
Qed.

(** ** The two queries *)

Section QueryFacts.
Context `{PyStr} `{SetIter}.

Lemma set_iter_empty : set_iter ∅ = [].
Proof.
  destruct (set_iter ∅) as [|x l] eqn:Hl; [done|].
  assert (x ∈ set_iter ∅) as Hx by (rewrite Hl; left).
  apply set_iter_elem in Hx. set_solver.
Qed.

(** A keyword without an entry scores like one with an empty entry. *)
Lemma score_keyword_posting idx scores kw :
  score_keyword idx scores kw = foldl bump scores (set_iter (posting idx kw)).
Proof.
  unfold score_keyword, posting. destruct (idx !! kw); simpl; [done|].
  by rewrite set_iter_empty.
Qed.

Lemma score_keywords_ok idx kws scores :
  scores_ok scores → scores_ok (foldl (score_keyword idx) scores kws).
Proof.
  revert scores. induction kws as [|kw kws IH]; intros scores Hok; [done|].
  cbn [foldl]. apply IH. rewrite score_keyword_posting.
  by apply foldl_bump_ok.
Qed.

Lemma score_keywords_score_in idx kws scores d :
  score_in (foldl (score_keyword idx) scores kws) d =
  score_in scores d + length (filter (λ w, d ∈ posting idx w) kws).
Proof.
  revert scores. induction kws as [|kw kws IH]; intros scores.
  - cbn. lia.
  - cbn [foldl]. rewrite IH, score_keyword_posting.
    rewrite foldl_bump_score_in by apply set_iter_NoDup.
    rewrite filter_cons.
    destruct (decide (d ∈ posting idx kw)) as [Hin|Hin].
    + rewrite decide_True by (by apply set_iter_elem). simpl. lia.
    + rewrite decide_False by (by rewrite set_iter_elem). lia.
Qed.

Lemma meeting_scores_ok self kws : scores_ok (meeting_scores self kws).
Proof.
  apply score_keywords_ok. split; [apply NoDup_nil_2 | constructor].
Qed.

Lemma meeting_scores_score_in self query d :
  score_in (meeting_scores self (_tokenize query)) d
  = occurrence_score self query d.
Proof. unfold meeting_scores. by rewrite score_keywords_score_in. Qed.

Lemma occurrence_score_pos self query d :
  0 < occurrence_score self query d ↔ d ∈ matching_docs self query.
Proof.
  unfold occurrence_score, matching_docs. rewrite elem_of_union_list.
  setoid_rewrite list_elem_of_fmap. split.
  - intros Hlen.
    destruct (filter _ (_tokenize query)) as [|w ws] eqn:Hf;
      [simpl in Hlen; lia|].
    assert (w ∈ filter (λ w, d ∈ posting (index self) w) (_tokenize query))
      as [Hd Hw]%list_elem_of_filter by (rewrite Hf; left).
    eauto.
  - intros (X & (w & -> & Hw) & Hd).
    assert (w ∈ filter (λ w, d ∈ posting (index self) w) (_tokenize query))
      as Hin by (by apply list_elem_of_filter).
    destruct (filter _ (_tokenize query)); [by apply elem_of_nil in Hin|].
    simpl. lia.
Qed.

Lemma elem_of_meeting_scores self query d n :
  (d, n) ∈ meeting_scores self (_tokenize query) ↔
  n = occurrence_score self query d ∧ d ∈ matching_docs self query.
Proof.
  rewrite elem_of_scores by apply meeting_scores_ok.
  rewrite meeting_scores_score_in, <- occurrence_score_pos.
  split; intros [-> ?]; done.
Qed.

Lemma meeting_scores_keys self query d :
  d ∈ (meeting_scores self (_tokenize query)).*1 ↔ d ∈ matching_docs self query.
Proof.
  rewrite list_elem_of_fmap. split.
  - intros ([d' n] & -> & Hin). by apply elem_of_meeting_scores in Hin as [_ ?].
  - intros Hd. exists (d, occurrence_score self query d). split; [done|].
    by apply elem_of_meeting_scores.
Qed.

Lemma length_meeting_scores self query :
  length (meeting_scores self (_tokenize query))
  = size (matching_docs self query).
Proof.
  rewrite <- (length_fmap fst). unfold size, set_size. simpl.
  apply Permutation_length, NoDup_Permutation.
  - apply meeting_scores_ok.
  - apply NoDup_elements.
  - intros d. by rewrite meeting_scores_keys, elem_of_elements.
Qed.

Lemma search_fold idx kws (acc : gset Z) :
  foldl (λ ids keyword,
           match idx !! keyword with
           | Some s => ids ∪ s
           | None => ids
           end) acc kws
  = acc ∪ ⋃ (posting idx <$> kws).
Proof.
  revert acc. induction kws as [|kw kws IH]; intros acc; cbn [foldl].
  - cbn. set_solver.
  - rewrite IH. cbn [fmap list_fmap]. rewrite union_list_cons.
    unfold posting at 2. destruct (idx !! kw); simpl; set_solver.
Qed.

Lemma search_keywords_iter self query :
  search_keywords self query = set_iter (matching_docs self query).
Proof.
  unfold search_keywords, matching_docs.
  destruct (_tokenize query) as [|kw kws] eqn:Htok.
  - cbn. by rewrite set_iter_empty.
  - rewrite search_fold. f_equal. set_solver.
Qed.

Lemma get_relevant_notes_unfold self query limit :
  get_relevant_notes self query limit =
  make_hit self
    <$> slice_to (sorted_desc (meeting_scores self (_tokenize query))) limit.
Proof.
  unfold get_relevant_notes.
  destruct (_tokenize query) as [|kw kws] eqn:Htok; [|done].
  cbn. unfold slice_to. by destruct (limit <? 0)%Z; rewrite take_nil.
Qed.

Lemma elem_of_matching_docs_posting self query d :
  d ∈ matching_docs self query ↔
  ∃ w, w ∈ _tokenize query ∧ d ∈ posting (index self) w.
Proof.
  unfold matching_docs. rewrite elem_of_union_list. split.
  - intros (X & HX & Hd). apply list_elem_of_fmap in HX as (w & -> & Hw). eauto.
  - intros (w & Hw & Hd). exists (posting (index self) w).
    split; [by apply list_elem_of_fmap_2 | done].
Qed.

Lemma elem_of_matching_docs self query d :
  d ∈ matching_docs self query ↔
  ∃ w s, w ∈ _tokenize query ∧ index self !! w = Some s ∧ d ∈ s.
Proof.
  rewrite elem_of_matching_docs_posting. unfold posting. split.
  - intros (w & Hw & Hd).
    destruct (index self !! w) as [s|] eqn:Hs; simpl in Hd.
    + exists w, s. done.
    + by apply not_elem_of_empty in Hd.
  - intros (w & s & Hw & Hs & Hd). exists w. by rewrite Hs.
Qed.

Lemma slice_to_take {A} (l : list A) limit : ∃ m, slice_to l limit = take m l.
Proof. unfold slice_to. destruct (limit <? 0)%Z; eauto. Qed.

Lemma elem_of_ranked self query d n :
  (d, n) ∈ ranked self query ↔
  n = occurrence_score self query d ∧ d ∈ matching_docs self query.
Proof. unfold ranked. by rewrite sorted_desc_perm, elem_of_meeting_scores. Qed.

Lemma ranked_NoDup self query : NoDup (ranked self query).*1.
Proof.
  unfold ranked. rewrite sorted_desc_perm. apply meeting_scores_ok.
Qed.

Lemma length_ranked self query :
  length (ranked self query) = size (matching_docs self query).
Proof.
  unfold ranked. by rewrite sorted_desc_perm, length_meeting_scores.
Qed.

Lemma get_relevant_notes_ranked self query limit :
  get_relevant_notes self query limit
  = make_hit self <$> slice_to (ranked self query) limit.
Proof. apply get_relevant_notes_unfold. Qed.

Lemma elem_of_hits self (l : list (Z * nat)) hit :
  hit ∈ make_hit self <$> l ↔
  (hit_meeting_id hit, hit_score hit) ∈ l
  ∧ hit_notes hit
    = default EmptyString (meeting_notes self !! hit_meeting_id hit).
Proof.
  rewrite list_elem_of_fmap. split.
  - intros ([d n] & -> & Hin). done.
  - intros [Hin Hn]. exists (hit_meeting_id hit, hit_score hit).
    split; [|done]. destruct hit as [d n t]. simpl in *. by subst.
Qed.

Lemma hits_ids self (l : list (Z * nat)) : hit_meeting_id <$> (make_hit self <$> l) = l.*1.
Proof.
  rewrite <- list_fmap_compose. apply list_fmap_ext. by intros _ [d n] _.
Qed.

Lemma ranked_sorted self query :
  StronglySorted by_score_desc (ranked self query).
Proof. apply sorted_desc_sorted. Qed.

Lemma hits_sorted self (l : list (Z * nat)) :
  StronglySorted by_score_desc l →
  StronglySorted (λ a b, hit_score b ≤ hit_score a) (make_hit self <$> l).
Proof.
  apply (StronglySorted_fmap _ by_score_desc). by intros [d1 n1] [d2 n2].
Qed.

Lemma hits_scores self (l : list (Z * nat)) :
  hit_score <$> (make_hit self <$> l) = l.*2.
Proof.
  rewrite <- list_fmap_compose. apply list_fmap_ext. by intros _ [d n] _.
Qed.

End QueryFacts.

Lemma slice_to_fmap {A B} (f : A → B) (l : list A) limit :
  f <$> slice_to l limit = slice_to (f <$> l) limit.
Proof.
  unfold slice_to. rewrite length_fmap.
  by destruct (limit <? 0)%Z; rewrite fmap_take.
Qed.

(** Two lists of scores, both with the largest first, one a rearrangement
    of the other, are the same list. *)
Lemma sorted_scores_unique (l k : list nat) :
  StronglySorted (λ x y, y ≤ x) l → StronglySorted (λ x y, y ≤ x) k →
  l ≡ₚ k → l = k.
Proof.
  intros Hl. revert k.
  induction Hl as [|x l Hl IH Hx]; intros k Hk Hperm.
  - by apply Permutation_nil_l in Hperm.
  - destruct Hk as [|y k Hk Hy];
      [by apply Permutation_nil_r in Hperm|].
    assert (x = y) as ->.
    { assert (x ∈ y :: k) as Hxk by (rewrite <- Hperm; left).
      assert (y ∈ x :: l) as Hyl by (rewrite Hperm; left).
      rewrite Forall_forall in Hx. rewrite Forall_forall in Hy.
      apply elem_of_cons in Hxk as [?|Hxk]; [done|].
      apply elem_of_cons in Hyl as [?|Hyl]; [done|].
      specialize (Hx _ Hyl). specialize (Hy _ Hxk). lia. }
    f_equal. apply IH; [done|]. by apply (inj (cons y)).
Qed.

(** ** Two states with the same postings, each with its own order *)

Section OrderFacts.
Context `{PyStr}.
Context (before after : SetIter).

Lemma same_postings_up_to_order a b :
  (∀ w, posting (index a) w = posting (index b) w) →
  meeting_notes a = meeting_notes b →
  same_results_up_to_order before after a b.
Proof.
  intros Hpost Hstore query.
  assert (Hm : matching_docs a query = matching_docs b query).
  { unfold matching_docs. f_equal. apply list_fmap_ext. auto. }
  assert (Hocc : ∀ d, occurrence_score a query d = occurrence_score b query d).
  { intros d. unfold occurrence_score. f_equal. apply list_filter_iff.
    intros w. by rewrite Hpost. }
  assert (Hhit : ∀ item, make_hit b item = make_hit a item).
  { intros [d n]. unfold make_hit. by rewrite Hstore. }
  assert (Hperm : @ranked _ after b query ≡ₚ @ranked _ before a query).
  { apply NoDup_Permutation.
    - eapply NoDup_fmap_1, (@ranked_NoDup _ after).
    - eapply NoDup_fmap_1, (@ranked_NoDup _ before).
    - intros [d n]. rewrite !elem_of_ranked. by rewrite Hm, Hocc. }
  assert (Hscores : (@ranked _ after b query).*2
                    = (@ranked _ before a query).*2).
  { apply sorted_scores_unique.
    - apply (StronglySorted_fmap _ by_score_desc); [done|].
      apply (@ranked_sorted _ after).
    - apply (StronglySorted_fmap _ by_score_desc); [done|].
      apply (@ranked_sorted _ before).
    - by rewrite Hperm. }
  assert (Hfull : ∀ limit,
            (Z.of_nat (size (matching_docs a query)) ≤ limit)%Z →
            @get_relevant_notes _ before a query limit
            = make_hit a <$> @ranked _ before a query).
  { intros limit Hlim.
    rewrite get_relevant_notes_ranked, slice_to_nonneg by lia.
    rewrite take_ge; [done|]. rewrite length_ranked. lia. }
  split_and!.
  - rewrite !search_keywords_iter, Hm. apply NoDup_Permutation.
    + apply (@set_iter_NoDup after).
    + apply (@set_iter_NoDup before).
    + intros d. by rewrite !set_iter_elem.
  - intros limit. rewrite !get_relevant_notes_ranked.
    rewrite !slice_to_fmap, !hits_scores. by rewrite Hscores.
  - intros limit hit. rewrite Hfull by lia.
    rewrite get_relevant_notes_ranked.
    intros (item & -> & Hin)%list_elem_of_fmap.
    destruct (slice_to_take (@ranked _ after b query) limit) as [m Hm'].
    rewrite Hm' in Hin. apply elem_of_take in Hin as (i & Hin & _).
    apply list_elem_of_lookup_2 in Hin. rewrite Hperm in Hin.
    rewrite Hhit. by apply list_elem_of_fmap_2.
  - intros limit Hlim. rewrite (Hfull limit Hlim).
    rewrite get_relevant_notes_ranked, slice_to_nonneg by lia.
    rewrite take_ge by (rewrite length_ranked, <- Hm; lia).
    rewrite Hperm.
    assert (Heq : make_hit b <$> @ranked _ before a query
                  = make_hit a <$> @ranked _ before a query)
      by (apply list_fmap_ext; auto).
    by rewrite Heq.
Qed.

End OrderFacts.

(** ** The properties of the queries *)

Section QueryClaims.
Context `{PyStr} `{SetIter}.

(** C5: the list [search_keywords] returns has no id twice, and its
    members are the members of the posting sets of the tokens of the query:
    the union of these sets. A token without an entry adds nothing, and a
    query without tokens gives the empty list. *)
Theorem search_keywords_union (self : KeywordIndexer) (query : string) :
  NoDup (search_keywords self query)
  ∧ (∀ doc, doc ∈ search_keywords self query ↔
            ∃ w s, w ∈ _tokenize query ∧ index self !! w = Some s ∧ doc ∈ s)
  ∧ (∀ doc, doc ∈ search_keywords self query ↔
            doc ∈ matching_docs self query)
  ∧ (_tokenize query = [] → search_keywords self query = []).
Proof.
  rewrite search_keywords_iter. split_and!.
  - apply set_iter_NoDup.
  - intros doc. by rewrite set_iter_elem, elem_of_matching_docs.
  - intros doc. by rewrite set_iter_elem.
  - intros Htok. unfold matching_docs. rewrite Htok. cbn.
    apply set_iter_empty.
Qed.

Lemma remove_dups_NoDup {A} `{EqDecision A} (l : list A) :
  NoDup l → remove_dups l = l.
Proof.
  induction 1 as [|x l Hx Hl IH]; simpl; [done|].
  destruct (decide_rel elem_of x l); [done | by rewrite IH].
Qed.

(** C1, as the code computes it: the score of every entry returned is the
    number of tokens of the query, each occurrence counted, whose posting
    set has the document, and it is positive, so a document no token posts
    is not returned; a limit not below the number of matching documents
    returns every one of them. For a query whose tokens are all different
    this number is the number of distinct tokens posting the document. *)
Theorem ranked_score_counts_occurrences (self : KeywordIndexer)
    (query : string) (limit : Z) :
  (∀ hit, hit ∈ get_relevant_notes self query limit →
     hit_score hit = occurrence_score self query (hit_meeting_id hit)
     ∧ 0 < hit_score hit
     ∧ hit_meeting_id hit ∈ matching_docs self query)
  ∧ ((Z.of_nat (size (matching_docs self query)) ≤ limit)%Z →
     ∀ doc, 0 < occurrence_score self query doc →
       ∃ hit, hit ∈ get_relevant_notes self query limit
              ∧ hit_meeting_id hit = doc)
  ∧ (NoDup (_tokenize query) →
     ∀ doc, occurrence_score self query doc
            = distinct_token_score self query doc).
Proof.
  rewrite get_relevant_notes_ranked. split_and!.
  - intros hit [Hin _]%elem_of_hits.
    destruct (slice_to_take (ranked self query) limit) as [m Hm].
    rewrite Hm in Hin. apply elem_of_take in Hin as (i & Hin & _).
    apply list_elem_of_lookup_2, elem_of_ranked in Hin as [Hs Hd].
    split_and!; [done | | done]. rewrite Hs. by apply occurrence_score_pos.
  - intros Hlim doc Hpos. apply occurrence_score_pos in Hpos.
    exists (make_hit self (doc, occurrence_score self query doc)).
    split; [|done]. apply list_elem_of_fmap_2.
    rewrite slice_to_nonneg by lia.
    rewrite take_ge by (rewrite length_ranked; lia).
    by apply elem_of_ranked.
  - intros Hnd doc. unfold occurrence_score, distinct_token_score.
    by rewrite remove_dups_NoDup.
Qed.

(** C6: for a limit that is not negative the number of entries returned is
    the smaller of the limit and the number of matching documents (those of
    positive score); the entries come with the largest score first, no
    document twice; each carries the id of a matching document, the score
    of that document and the text stored for it; and no matching document
    left out has a larger score than one returned. Limit 0 returns the
    empty list. *)
Theorem ranked_limit_top (self : KeywordIndexer) (query : string) (limit : Z) :
  (0 ≤ limit)%Z →
  let hits := get_relevant_notes self query limit in
  length hits = Z.to_nat limit `min` size (matching_docs self query)
  ∧ (∀ doc, doc ∈ matching_docs self query ↔
            0 < occurrence_score self query doc)
  ∧ StronglySorted (λ a b, hit_score b ≤ hit_score a) hits
  ∧ NoDup (hit_meeting_id <$> hits)
  ∧ (∀ hit, hit ∈ hits →
       hit_meeting_id hit ∈ matching_docs self query
       ∧ hit_score hit = occurrence_score self query (hit_meeting_id hit)
       ∧ hit_notes hit
         = default EmptyString (meeting_notes self !! hit_meeting_id hit)
       ∧ ∀ text, meeting_notes self !! hit_meeting_id hit = Some text →
                 hit_notes hit = text)
  ∧ (∀ doc hit, doc ∈ matching_docs self query →
       doc ∉ hit_meeting_id <$> hits → hit ∈ hits →
       occurrence_score self query doc ≤ hit_score hit)
  ∧ (limit = 0%Z → hits = []).
Proof.
  intros Hlim hits. subst hits. rewrite get_relevant_notes_ranked.
  rewrite slice_to_nonneg by done. set (n := Z.to_nat limit).
  pose proof (sorted_desc_sorted (meeting_scores self (_tokenize query)))
    as Hsorted. fold (ranked self query) in Hsorted.
  rewrite <- (take_drop n (ranked self query)) in Hsorted.
  split_and!.
  - by rewrite length_fmap, length_take, length_ranked.
  - intros doc. by rewrite occurrence_score_pos.
  - apply (StronglySorted_fmap _ by_score_desc).
    + by intros [d1 n1] [d2 n2].
    + by apply StronglySorted_app_1_l in Hsorted.
  - rewrite hits_ids. pose proof (ranked_NoDup self query) as Hnd.
    rewrite <- (take_drop n (ranked self query)), fmap_app in Hnd.
    by apply NoDup_app in Hnd as [? _].
  - intros hit [Hin Hnotes]%elem_of_hits.
    apply elem_of_take in Hin as (i & Hin & _).
    apply list_elem_of_lookup_2, elem_of_ranked in Hin as [Hs Hd].
    split_and!; [done | done | done |].
    intros text Ht. by rewrite Hnotes, Ht.
  - intros doc hit Hdoc Hout [Hin _]%elem_of_hits.
    assert ((doc, occurrence_score self query doc) ∈ ranked self query)
      as Hall by (by apply elem_of_ranked).
    rewrite <- (take_drop n (ranked self query)) in Hall.
    apply elem_of_app in Hall as [Htake | Hdrop].
    + exfalso. apply Hout. rewrite hits_ids.
      apply list_elem_of_fmap. by exists (doc, occurrence_score self query doc).
    + apply (StronglySorted_app_1_elem_of _ _ _ _ _ Hsorted Hin Hdrop).
  - intros ->. done.
Qed.

(** C10: with [n] matching documents and the limit [-k], [0 < k ≤ n], the
    call returns without an exception the first [n - k] entries of the
    score-sorted list of all matching documents. That list, which a limit
    of [n] returns, has every matching document once, with its score, the
    largest score first; the call drops its last [k] entries, none of which
    has a larger score than an entry it keeps: every matching document but
    the [k] lowest-ranked. *)
Theorem ranked_negative_limit (self : KeywordIndexer) (query : string)
    (k : nat) :
  let n := size (matching_docs self query) in
  let full := get_relevant_notes self query (Z.of_nat n) in
  let kept := get_relevant_notes self query (- Z.of_nat k) in
  0 < k ≤ n →
  full = make_hit self <$> ranked self query
  ∧ length full = n
  ∧ StronglySorted (λ a b, hit_score b ≤ hit_score a) full
  ∧ NoDup (hit_meeting_id <$> full)
  ∧ (∀ doc, doc ∈ hit_meeting_id <$> full ↔ doc ∈ matching_docs self query)
  ∧ (∀ hit, hit ∈ full →
       hit_score hit = occurrence_score self query (hit_meeting_id hit))
  ∧ kept = take (n - k) full
  ∧ full = kept ++ drop (n - k) full
  ∧ length kept = n - k
  ∧ length (drop (n - k) full) = k
  ∧ (∀ hit dropped, hit ∈ kept → dropped ∈ drop (n - k) full →
       hit_score dropped ≤ hit_score hit)
  ∧ (k < n → kept ≠ []).
Proof.
  intros n full kept [Hk Hkn].
  assert (Hfull : full = make_hit self <$> ranked self query).
  { subst full. rewrite get_relevant_notes_ranked, slice_to_nonneg by lia.
    rewrite take_ge; [done|]. rewrite length_ranked. subst n. lia. }
  assert (Hlenf : length full = n)
    by (by rewrite Hfull, length_fmap, length_ranked).
  assert (Hsorted : StronglySorted (λ a b, hit_score b ≤ hit_score a) full)
    by (rewrite Hfull; apply hits_sorted, ranked_sorted).
  assert (Hneg : kept = take (n - k) full).
  { subst kept. rewrite Hfull, get_relevant_notes_ranked.
    rewrite slice_to_negative by done.
    by rewrite length_ranked, fmap_take. }
  assert (Hsplit : full = kept ++ drop (n - k) full)
    by (by rewrite Hneg, take_drop).
  assert (Hlen : length kept = n - k)
    by (rewrite Hneg, length_take; lia).
  split_and!; try done.
  - rewrite Hfull, hits_ids. apply ranked_NoDup.
  - intros doc. rewrite Hfull, hits_ids, list_elem_of_fmap. split.
    + intros ([d' s'] & -> & Hin). by apply elem_of_ranked in Hin as [_ ?].
    + intros Hd. exists (doc, occurrence_score self query doc).
      split; [done|]. by apply elem_of_ranked.
  - intros hit Hin. rewrite Hfull in Hin.
    apply elem_of_hits in Hin as [Hin _].
    by apply elem_of_ranked in Hin as [? _].
  - rewrite length_drop. lia.
  - intros hit dropped Hhit Hdropped. rewrite Hsplit in Hsorted.
    apply (StronglySorted_app_1_elem_of _ _ _ _ _ Hsorted Hhit Hdropped).
  - intros Hlt Hnil. rewrite Hnil in Hlen. simpl in Hlen. lia.
Qed.

(** C9: indexing or removing the document [x] leaves the stored text of
    another document [y] as it was, and [y] in the posting set of every
    token exactly when it was there before; so [y] is among the results of
    [search_keywords] for a query after the call exactly when it was
    before, and the score of [y] for a query is what it was. *)
Theorem other_documents_unchanged (self : KeywordIndexer) (x y : Z)
    (text : string) :
  x ≠ y →
  (meeting_notes (index_meeting self x text) !! y = meeting_notes self !! y
   ∧ (∀ w, y ∈ posting (index (index_meeting self x text)) w ↔
           y ∈ posting (index self) w)
   ∧ (∀ query, y ∈ search_keywords (index_meeting self x text) query ↔
               y ∈ search_keywords self query)
   ∧ (∀ query, occurrence_score (index_meeting self x text) query y
               = occurrence_score self query y))
  ∧ (∀ self', remove_meeting self x = Some self' →
       meeting_notes self' !! y = meeting_notes self !! y
       ∧ (∀ w, y ∈ posting (index self') w ↔ y ∈ posting (index self) w)
       ∧ (∀ query, y ∈ search_keywords self' query ↔
                   y ∈ search_keywords self query)
       ∧ (∀ query, occurrence_score self' query y
                   = occurrence_score self query y)).
Proof.
  intros Hne.
  assert (Hsearch : ∀ a b,
    (∀ w, y ∈ posting (index a) w ↔ y ∈ posting (index b) w) →
    ∀ query, y ∈ search_keywords a query ↔ y ∈ search_keywords b query).
  { intros a b Hp query. rewrite !search_keywords_iter, !set_iter_elem.
    rewrite !elem_of_matching_docs_posting.
    split; intros (w & Hw & Hd); exists w; (split; [done|]); by apply Hp. }
  assert (Hscore : ∀ a b,
    (∀ w, y ∈ posting (index a) w ↔ y ∈ posting (index b) w) →
    ∀ query, occurrence_score a query y = occurrence_score b query y).
  { intros a b Hp query. unfold occurrence_score. f_equal.
    by apply list_filter_iff. }
  split.
  - destruct (index_meeting_frame self x text y Hne) as [Hs Hp]. auto.
  - intros self' Hrm.
    destruct (remove_meeting_frame self x self' y Hne Hrm) as [Hs Hp]. auto.
Qed.

Lemma absent_unposted self doc w : absent self doc → doc ∉ posting (index self) w.
Proof.
  intros [_ Hnp] Hin. apply Hnp, posted_posting. eauto.
Qed.

(** In a state that keeps the invariant an id that is not stored is
    absent. *)
Lemma postings_exact_absent self doc :
  postings_exact self → meeting_notes self !! doc = None → absent self doc.
Proof.
  intros Hinv Hn. split; [done|]. rewrite posted_posting.
  intros (w & (n & Hn' & _)%Hinv). congruence.
Qed.

(** Between the two calls of an update, [remove_meeting] and then
    [index_meeting], the document is in no result. *)
Lemma removed_document_not_found self doc self' query :
  postings_exact self → remove_meeting self doc = Some self' →
  doc ∉ search_keywords self' query.
Proof.
  intros Hinv Hrm. pose proof (postings_exact_remove _ _ _ Hinv Hrm) as Hinv'.
  rewrite search_keywords_iter, set_iter_elem, elem_of_matching_docs_posting.
  intros (w & _ & (n & Hn & _)%Hinv').
  destruct (meeting_notes self !! doc) as [notes|] eqn:Hdoc.
  - rewrite (remove_meeting_stored _ _ _ Hdoc) in Hrm. injection Hrm as <-.
    simpl in Hn. by rewrite lookup_delete_eq in Hn.
  - rewrite (remove_meeting_missing _ _ Hdoc) in Hrm. injection Hrm as <-.
    congruence.
Qed.

(** C2, as the code behaves: when [doc] is not in the state, indexing it
    and then removing it returns a state that answers as the state before
    the two calls did, but for the order in which a set is iterated, which
    the two calls can change: [search_keywords] returns the same ids, each
    once, in some order; [get_relevant_notes] returns at every limit the
    same scores in the same places and entries that are entries of the
    ranking before the calls; and with a limit that does not truncate it
    returns the same entries, those of equal score in some order. *)
Theorem index_then_remove_same_up_to_order (before after : SetIter)
    (self : KeywordIndexer) (doc : Z) (text : string) :
  absent self doc →
  ∃ self', remove_meeting (index_meeting self doc text) doc = Some self'
           ∧ same_results_up_to_order before after self self'.
Proof.
  intros Habs. eexists. split.
  - apply remove_meeting_stored. simpl. apply lookup_insert_eq.
  - apply same_postings_up_to_order; simpl.
    + intros w. apply set_eq. intros d.
      rewrite elem_posting_discard_fold, elem_posting_add_fold.
      pose proof (absent_unposted self doc w Habs). naive_solver.
    + rewrite delete_insert_eq. symmetry. apply delete_id, Habs.
Qed.

End QueryClaims.

(** * Further properties *)

(** ** Shape of the tokens *)

Module RunFacts.

Lemma lower_fixed s :
  Forall (λ c, Ascii7.lower_char c = c) s → Ascii7.lower_char <$> s = s.
Proof.
  induction 1 as [|c s Hc _ IH]; cbn; [done|].
  by rewrite Hc, IH.
Qed.

Lemma list_ascii_of_string_app (a b : string) :
  list_ascii_of_string (a +:+ b)
  = list_ascii_of_string a ++ list_ascii_of_string b.
Proof. induction a as [|c a IH]; simpl; [done|]. by rewrite IH. Qed.

Lemma length_string_of_list_ascii w :
  String.length (string_of_list_ascii w) = length w.
Proof. induction w as [|c w IH]; simpl; [done|]. by rewrite IH. Qed.

End RunFacts.

Section TokenFacts.
Context `{PyStr}.

(** The run behind a token: more than two word characters. *)
Lemma token_run text t :
  t ∈ _tokenize text →
  ∃ w, t = text_of w ∧ 2 < length w
       ∧ Forall (λ c, py_is_word c = true) w.
Proof.
  rewrite tokenize_unfold. intros (w & -> & Hw)%list_elem_of_fmap.
  apply list_elem_of_filter in Hw as [Hlen Hw].
  exists w. split_and!; [done | done |].
  pose proof (TextFacts.maximal_runs_words py_is_word _ _
                (TextFacts.findall_maximal_runs py_is_word
                   (py_lower (chars text)))) as Hall.
  rewrite Forall_forall in Hall. destruct (Hall w Hw) as [_ Hcs].
  eapply Forall_impl; [exact Hcs|]. by intros c [? _].
Qed.

(** The run behind a token of an ASCII text: more than two characters,
    each a digit, a small letter or the underscore. *)
Lemma token_run_ascii text t :
  Ascii7.is_ascii text → t ∈ _tokenize text →
  ∃ w, t = string_of_list_ascii w ∧ 2 < length w
       ∧ Forall (λ c, Ascii7.seven_bit c ∧ Ascii7.is_word c = true
                      ∧ Ascii7.lower_char c = c) w.
Proof.
  intros Hasc. rewrite tokenize_ascii_runs by done.
  intros (w & -> & Hw)%list_elem_of_fmap.
  apply list_elem_of_filter in Hw as [Hlen Hw].
  exists w. split_and!; [done | done |].
  pose proof (TextFacts.maximal_runs_words Ascii7.is_word _ _
                (TextFacts.findall_maximal_runs Ascii7.is_word
                   (Ascii7.lower_char <$> list_ascii_of_string text))) as Hall.
  rewrite Forall_forall in Hall. destruct (Hall w Hw) as [_ Hcs].
  eapply Forall_impl; [exact Hcs|]. intros c [Hc Hin].
  apply list_elem_of_fmap in Hin as (c0 & -> & Hc0).
  split_and!; [|done|apply Ascii7Facts.lower_char_idem].
  apply Ascii7Facts.lower_char_seven_bit.
  unfold Ascii7.is_ascii in Hasc. rewrite Forall_forall in Hasc. by apply Hasc.
Qed.

Lemma tokenize_token text t :
  Ascii7.is_ascii text → t ∈ _tokenize text → _tokenize t = [t].
Proof.
  intros Hasc (w & -> & Hlen & Hw)%token_run_ascii; [|done].
  assert (Hasc' : Ascii7.is_ascii (string_of_list_ascii w)).
  { unfold Ascii7.is_ascii. rewrite list_ascii_of_string_of_list_ascii.
    eapply Forall_impl; [exact Hw|]. by intros c (? & _). }
  rewrite tokenize_ascii_runs, list_ascii_of_string_of_list_ascii by done.
  rewrite RunFacts.lower_fixed
    by (eapply Forall_impl; [exact Hw|]; by intros c (_ & _ & ?)).
  rewrite TextFacts.findall_word.
  - rewrite filter_cons, decide_True by done. done.
  - intros ->. simpl in Hlen. lia.
  - eapply Forall_impl; [exact Hw|]. by intros c (_ & ? & _).
Qed.

(** X1: every token [_tokenize] returns is the text of more than two
    characters, all of them word characters; a token of a text of ASCII
    characters has more than two characters, each a digit, a small letter
    or the underscore. *)
Theorem tokenize_tokens_wellformed (text t : string) :
  t ∈ _tokenize text →
  (∃ w, t = text_of w ∧ 2 < length w
        ∧ Forall (λ c, py_is_word c = true) w)
  ∧ (Ascii7.is_ascii text →
     2 < String.length t
     ∧ Forall (λ c, Ascii7.seven_bit c ∧ Ascii7.is_word c = true
                    ∧ Ascii7.lower_char c = c)
         (list_ascii_of_string t)).
Proof.
  intros Ht. split; [by apply (token_run text)|].
  intros Hasc. destruct (token_run_ascii text t Hasc Ht) as (w & -> & Hlen & Hw).
  by rewrite RunFacts.length_string_of_list_ascii,
    list_ascii_of_string_of_list_ascii.
Qed.

(** X2: a token of a text of ASCII characters is a fixed point of the
    tokenizer: tokenizing it returns that token alone. *)
Theorem tokenize_token_fixpoint (text t : string) :
  Ascii7.is_ascii text → t ∈ _tokenize text → _tokenize t = [t].
Proof. apply tokenize_token. Qed.

(** X3: for texts of ASCII characters, the tokens of two texts joined by a
    non-empty separator without word characters are the tokens of the
    first followed by the tokens of the second. *)
Theorem tokenize_app_separator (a sep b : string) :
  Ascii7.is_ascii a → Ascii7.is_ascii sep → Ascii7.is_ascii b →
  sep ≠ EmptyString →
  Forall (λ c, Ascii7.is_word c = false) (list_ascii_of_string sep) →
  _tokenize (a +:+ sep +:+ b) = _tokenize a ++ _tokenize b.
Proof.
  intros Ha Hs Hb Hne Hsep.
  assert (Hall : Ascii7.is_ascii (a +:+ sep +:+ b)).
  { unfold Ascii7.is_ascii. rewrite !RunFacts.list_ascii_of_string_app.
    by rewrite !Forall_app. }
  rewrite !tokenize_ascii_runs by done.
  rewrite !RunFacts.list_ascii_of_string_app, !fmap_app.
  rewrite TextFacts.findall_app.
  - by rewrite filter_app, fmap_app.
  - destruct sep; [done|]. done.
  - apply Forall_fmap. eapply Forall_impl; [exact Hsep|].
    intros c Hc. simpl. by rewrite Ascii7Facts.lower_char_word.
Qed.

End TokenFacts.

(** ** Entries of the index under the two mutations *)

Section EntryFacts.
Context `{PyStr}.

Lemma lookup_add_fold m ws idx w :
  foldl (add_posting m) idx ws !! w
  = if decide (w ∈ ws) then Some (posting idx w ∪ {[m]}) else idx !! w.
Proof.
  revert idx. induction ws as [|x ws IH]; intros idx; cbn [foldl].
  - case_decide as Hin; [by apply elem_of_nil in Hin | done].
  - rewrite IH. destruct (decide (x = w)) as [->|Hne].
    + rewrite (decide_True (P := w ∈ w :: ws)) by left.
      assert (Hp : posting (add_posting m idx w) w = posting idx w ∪ {[m]})
        by (unfold add_posting, posting at 1; by rewrite lookup_insert_eq).
      assert (Hl : add_posting m idx w !! w = Some (posting idx w ∪ {[m]}))
        by (unfold add_posting; by rewrite lookup_insert_eq).
      rewrite Hp, Hl. case_decide; f_equal; set_solver.
    + assert (Hl : add_posting m idx x !! w = idx !! w)
        by (unfold add_posting; by rewrite lookup_insert_ne).
      assert (Hp : posting (add_posting m idx x) w = posting idx w)
        by (unfold posting; by rewrite Hl).
      rewrite Hp, Hl.
      destruct (decide (w ∈ ws)) as [Hin|Hin].
      * rewrite decide_True by (by right). done.
      * rewrite decide_False; [done|].
        intros [?|?]%elem_of_cons; [congruence | done].
Qed.

Lemma lookup_discard_fold m ws idx w :
  foldl (discard_posting m) idx ws !! w
  = if decide (w ∈ ws) then Some (posting idx w ∖ {[m]}) else idx !! w.
Proof.
  revert idx. induction ws as [|x ws IH]; intros idx; cbn [foldl].
  - case_decide as Hin; [by apply elem_of_nil in Hin | done].
  - rewrite IH. destruct (decide (x = w)) as [->|Hne].
    + rewrite (decide_True (P := w ∈ w :: ws)) by left.
      assert (Hp : posting (discard_posting m idx w) w = posting idx w ∖ {[m]})
        by (unfold discard_posting, posting at 1; by rewrite lookup_insert_eq).
      assert (Hl : discard_posting m idx w !! w = Some (posting idx w ∖ {[m]}))
        by (unfold discard_posting; by rewrite lookup_insert_eq).
      rewrite Hp, Hl. case_decide; f_equal; set_solver.
    + assert (Hl : discard_posting m idx x !! w = idx !! w)
        by (unfold discard_posting; by rewrite lookup_insert_ne).
      assert (Hp : posting (discard_posting m idx x) w = posting idx w)
        by (unfold posting; by rewrite Hl).
      rewrite Hp, Hl.
      destruct (decide (w ∈ ws)) as [Hin|Hin].
      * rewrite decide_True by (by right). done.
      * rewrite decide_False; [done|].
        intros [?|?]%elem_of_cons; [congruence | done].
Qed.

Lemma remove_meeting_unstored self doc self' :
  remove_meeting self doc = Some self' → meeting_notes self' !! doc = None.
Proof.
  intros Hrm. destruct (meeting_notes self !! doc) as [notes|] eqn:Hn.
  - rewrite (remove_meeting_stored _ _ _ Hn) in Hrm. injection Hrm as <-.
    simpl. apply lookup_delete_eq.
  - rewrite (remove_meeting_missing _ _ Hn) in Hrm. by injection Hrm as <-.
Qed.

(** X4: indexing the same text for the same id a second time changes
    nothing: the state is the one after the first call. *)
Theorem index_meeting_idempotent (self : KeywordIndexer) (doc : Z)
    (notes : string) :
  index_meeting (index_meeting self doc notes) doc notes
  = index_meeting self doc notes.
Proof.
  unfold index_meeting. cbn [index meeting_notes]. f_equal.
  - apply map_eq. intros w. rewrite !lookup_add_fold.
    case_decide as Hw; [|done]. f_equal. unfold posting at 1.
    rewrite lookup_add_fold, decide_True by done. simpl. set_solver.
  - apply insert_insert_eq.
Qed.

(** X5: a second [remove_meeting] for the same id is a no-op: it returns
    the state the first one returned. *)
Theorem remove_meeting_twice (self : KeywordIndexer) (doc : Z)
    (self' : KeywordIndexer) :
  remove_meeting self doc = Some self' →
  remove_meeting self' doc = Some self'.
Proof.
  intros Hrm. by apply remove_meeting_missing, (remove_meeting_unstored self).
Qed.

(** X6: neither mutation ever deletes an entry of the token→postings
    mapping. After [remove_meeting] every token of the removed text still
    has its entry, the posting set it had without the removed id, the empty
    set included. *)
Theorem index_keys_never_removed (self : KeywordIndexer) (doc : Z)
    (text : string) :
  dom (index self) ⊆ dom (index (index_meeting self doc text))
  ∧ ∀ self', remove_meeting self doc = Some self' →
      dom (index self) ⊆ dom (index self')
      ∧ ∀ notes w, meeting_notes self !! doc = Some notes →
          w ∈ _tokenize notes →
          index self' !! w = Some (posting (index self) w ∖ {[doc]}).
Proof.
  split.
  - intros w [s Hs]%elem_of_dom. apply elem_of_dom. simpl.
    rewrite lookup_add_fold. case_decide; eauto.
  - intros self' Hrm.
    destruct (meeting_notes self !! doc) as [notes|] eqn:Hn.
    + rewrite (remove_meeting_stored _ _ _ Hn) in Hrm. injection Hrm as <-.
      simpl. split.
      * intros w [s Hs]%elem_of_dom. apply elem_of_dom.
        rewrite lookup_discard_fold. case_decide; eauto.
      * intros notes' w [= <-] Hw. by rewrite lookup_discard_fold, decide_True.
    + rewrite (remove_meeting_missing _ _ Hn) in Hrm. injection Hrm as <-.
      split; [done|]. intros notes' w [=].
Qed.

End EntryFacts.

(** ** More on the queries *)

Section MoreQueryFacts.
Context `{PyStr} `{SetIter}.

Lemma elem_of_search_keywords self query d :
  d ∈ search_keywords self query ↔
  ∃ w, w ∈ _tokenize query ∧ d ∈ posting (index self) w.
Proof.
  by rewrite search_keywords_iter, set_iter_elem, elem_of_matching_docs_posting.
Qed.

Lemma elem_of_get_relevant_notes self query limit hit :
  hit ∈ get_relevant_notes self query limit →
  hit_meeting_id hit ∈ matching_docs self query
  ∧ hit_score hit = occurrence_score self query (hit_meeting_id hit)
  ∧ hit_notes hit
    = default EmptyString (meeting_notes self !! hit_meeting_id hit).
Proof.
  rewrite get_relevant_notes_ranked. intros [Hin Hnotes]%elem_of_hits.
  destruct (slice_to_take (ranked self query) limit) as [m Hm].
  rewrite Hm in Hin. apply elem_of_take in Hin as (i & Hin & _).
  by apply list_elem_of_lookup_2, elem_of_ranked in Hin as [Hs Hd].
Qed.

(** X7: indexing an id a second time with another text, without a remove
    in between, leaves the postings of the first text behind: a token that
    posted the id and is not in the new text still posts it after the next
    [remove_meeting], when the id is no longer stored, and every query with
    that token still finds the id. *)
Theorem double_index_leaves_stale_posting (self : KeywordIndexer) (doc : Z)
    (new : string) (w : string) :
  doc ∈ posting (index self) w → w ∉ _tokenize new →
  ∃ self', remove_meeting (index_meeting self doc new) doc = Some self'
    ∧ meeting_notes self' !! doc = None
    ∧ doc ∈ posting (index self') w
    ∧ ∀ query, w ∈ _tokenize query → doc ∈ search_keywords self' query.
Proof.
  intros Hold Hnew. eexists. split.
  - apply remove_meeting_stored. simpl. apply lookup_insert_eq.
  - assert (Hstale : doc ∈ posting
              (foldl (discard_posting doc)
                 (foldl (add_posting doc) (index self) (_tokenize new))
                 (_tokenize new)) w).
    { rewrite elem_posting_discard_fold, elem_posting_add_fold. naive_solver. }
    simpl. split_and!; [apply lookup_delete_eq | done |].
    intros query Hq. apply elem_of_search_keywords. eauto.
Qed.

(** X8: in a state reached with the caller discipline, [search_keywords]
    returns an id exactly when a text is stored for it that shares a token
    with the query. *)
Theorem search_finds_documents_sharing_token (self : KeywordIndexer)
    (query : string) (doc : Z) :
  reachable self →
  doc ∈ search_keywords self query ↔
  ∃ notes, meeting_notes self !! doc = Some notes
           ∧ ∃ w, w ∈ _tokenize query ∧ w ∈ _tokenize notes.
Proof.
  intros Hinv%reachable_postings_exact. rewrite elem_of_search_keywords.
  split.
  - intros (w & Hw & (n & Hn & Hwn)%Hinv). eauto.
  - intros (n & Hn & w & Hw & Hwn). exists w. split; [done|].
    apply Hinv. eauto.
Qed.

(** X9: in a state reached with the caller discipline, every entry of
    [get_relevant_notes] is for a stored document, carries the text stored
    for it (never the fallback text), and its score is the number of
    tokens of the query, each occurrence counted, that are tokens of that
    text. *)
Theorem ranked_hits_of_stored_documents (self : KeywordIndexer)
    (query : string) (limit : Z) (hit : note_hit) :
  reachable self → hit ∈ get_relevant_notes self query limit →
  ∃ notes, meeting_notes self !! hit_meeting_id hit = Some notes
           ∧ hit_notes hit = notes
           ∧ hit_score hit
             = length (filter (λ w, w ∈ _tokenize notes) (_tokenize query))
           ∧ 0 < hit_score hit.
Proof.
  intros Hinv%reachable_postings_exact
    (Hd & Hs & Hn)%elem_of_get_relevant_notes.
  pose proof Hd as Hpos%occurrence_score_pos.
  apply elem_of_matching_docs_posting in Hd as (w & Hw & (n & Hst & Hwn)%Hinv).
  exists n. split_and!; [done | by rewrite Hn, Hst | | lia].
  rewrite Hs. unfold occurrence_score. f_equal. apply list_filter_iff.
  intros w'. rewrite (Hinv w' (hit_meeting_id hit)). split.
  - intros (n' & Hn' & ?). congruence.
  - eauto.
Qed.

(** X10: the ids of the entries [get_relevant_notes] returns are ids that
    [search_keywords] returns for the same query, and with a limit not below
    their number they are all of them, each once. *)
Theorem ranked_ids_are_search_results (self : KeywordIndexer)
    (query : string) (limit : Z) :
  hit_meeting_id <$> get_relevant_notes self query limit
    ⊆ search_keywords self query
  ∧ ((Z.of_nat (length (search_keywords self query)) ≤ limit)%Z →
     hit_meeting_id <$> get_relevant_notes self query limit
       ≡ₚ search_keywords self query).
Proof.
  split.
  - intros d (hit & -> & Hin)%list_elem_of_fmap.
    apply elem_of_get_relevant_notes in Hin as (Hd & _).
    by rewrite search_keywords_iter, set_iter_elem.
  - rewrite search_keywords_iter. intros Hlim.
    assert (Hlen : length (set_iter (matching_docs self query))
                   = length (ranked self query)).
    { rewrite length_ranked. unfold size, set_size. simpl.
      apply Permutation_length, NoDup_Permutation;
        [apply set_iter_NoDup | apply NoDup_elements|].
      intros d. by rewrite set_iter_elem, elem_of_elements. }
    rewrite get_relevant_notes_ranked, slice_to_nonneg by lia.
    rewrite take_ge by lia. rewrite hits_ids.
    apply NoDup_Permutation; [apply ranked_NoDup | apply set_iter_NoDup|].
    intros d. rewrite set_iter_elem, list_elem_of_fmap. split.
    + intros ([d' n] & -> & Hin). by apply elem_of_ranked in Hin as [_ ?].
    + intros Hd. exists (d, occurrence_score self query d).
      split; [done|]. by apply elem_of_ranked.
Qed.

(** X11: for limits that are not negative, the result for the smaller
    limit is the start of the result for the larger one. *)
Theorem ranked_limit_prefix (self : KeywordIndexer) (query : string)
    (limit1 limit2 : Z) :
  (0 ≤ limit1 ≤ limit2)%Z →
  get_relevant_notes self query limit1
  = take (Z.to_nat limit1) (get_relevant_notes self query limit2).
Proof.
  intros [H1 H2]. rewrite !get_relevant_notes_ranked.
  rewrite !slice_to_nonneg by lia. rewrite <- fmap_take, take_take.
  do 2 f_equal. lia.
Qed.

(** X12: a limit at or below minus the number of matching documents
    returns the empty list: the slice drops every entry. *)
Theorem ranked_limit_drops_all (self : KeywordIndexer) (query : string)
    (limit : Z) :
  (limit ≤ - Z.of_nat (size (matching_docs self query)))%Z →
  get_relevant_notes self query limit = [].
Proof.
  intros Hlim. rewrite get_relevant_notes_ranked. unfold slice_to.
  pose proof (length_ranked self query) as Hlen.
  destruct (Z.ltb_spec limit 0) as [Hneg|Hpos].
  - replace (Z.to_nat (Z.of_nat (length (ranked self query)) + limit)) with 0
      by lia. done.
  - replace (Z.to_nat limit) with 0 by lia. done.
Qed.

(** X13: a document just indexed with notes of ASCII characters is found
    by each of its own tokens used as a query, whatever the state before
    the call. *)
Theorem indexed_document_found_by_own_tokens (self : KeywordIndexer)
    (doc : Z) (notes t : string) :
  Ascii7.is_ascii notes → t ∈ _tokenize notes →
  doc ∈ search_keywords (index_meeting self doc notes) t.
Proof.
  intros Hasc Ht. apply elem_of_search_keywords. exists t. split.
  - rewrite (tokenize_token notes t Hasc Ht). left.
  - simpl. apply elem_posting_add_fold. by right.
Qed.

(** X14: in a state reached with the caller discipline, after
    [remove_meeting] the removed id is in no result of [search_keywords]
    and of [get_relevant_notes]. *)
Theorem removed_document_in_no_result (self : KeywordIndexer) (doc : Z)
    (self' : KeywordIndexer) (query : string) :
  reachable self → remove_meeting self doc = Some self' →
  (doc ∉ search_keywords self' query)
  ∧ ∀ limit hit, hit ∈ get_relevant_notes self' query limit →
      hit_meeting_id hit ≠ doc.
Proof.
  intros Hinv%reachable_postings_exact Hrm.
  pose proof (removed_document_not_found self doc self' query Hinv Hrm) as Hno.
  split; [done|]. intros limit hit (Hd & _)%elem_of_get_relevant_notes Heq.
  apply Hno. rewrite <- Heq. by rewrite search_keywords_iter, set_iter_elem.
Qed.

End MoreQueryFacts.

(** ** The handlers keep the index in step with the table *)

Section HandlerFacts.
Context {Meeting MeetingUpdate : Type}.
Context (title raw_notes : Meeting → string).
Context (apply_update : MeetingUpdate → Meeting → option Meeting).
Context (answer_question : string → list (Z * string * string) → string).
Context `{PyStr} `{SetIter}.

Lemma index_rows_in_sync (rows : list (Z * Meeting)) idx :
  NoDup rows.*1 → postings_exact idx →
  (∀ i, i ∈ rows.*1 → meeting_notes idx !! i = None) →
  let idx' :=
    foldl (λ idx meeting, index_meeting idx meeting.1 (raw_notes meeting.2))
      idx rows in
  postings_exact idx'
  ∧ meeting_notes idx'
    = (raw_notes <$> (list_to_map rows : gmap Z Meeting)) ∪ meeting_notes idx.
Proof.
  revert idx. induction rows as [|[k m] rows IH]; intros idx Hnd Hinv Hfresh.
  - cbn. split; [done|]. by rewrite fmap_empty, (left_id_L ∅ (∪)).
  - cbn [fmap list_fmap fst] in Hnd. apply NoDup_cons in Hnd as [Hk Hnd].
    cbn [foldl fst snd].
    destruct (IH (index_meeting idx k (raw_notes m))) as [Hinv' Hst]; [done| | |].
    + apply postings_exact_index; [done|]. apply Hfresh. left.
    + intros i Hi. simpl. rewrite lookup_insert_ne by (intros ->; done).
      apply Hfresh. by right.
    + split; [done|]. rewrite Hst. simpl.
      rewrite fmap_insert, <- insert_union_l.
      rewrite insert_union_r; [done|].
      rewrite lookup_fmap, (not_elem_of_list_to_map_1 _ _ Hk). done.
Qed.

Lemma in_sync_stored (st : app_state Meeting) i :
  in_sync raw_notes st →
  meeting_notes (keyword_indexer st) !! i = raw_notes <$> db st !! i.
Proof. intros [-> _]. apply lookup_fmap. Qed.

(** X15: [startup_event], run on the new indexer, leaves the table as it
    is and brings the index in step with it: the texts stored are the notes
    of the rows, and the postings are those of these notes. *)
Theorem startup_event_in_sync (table : gmap Z Meeting) :
  db (startup_event raw_notes (mkApp table new_indexer)) = table
  ∧ in_sync raw_notes (startup_event raw_notes (mkApp table new_indexer)).
Proof.
  split; [done|]. unfold in_sync, startup_event. cbn [db keyword_indexer].
  destruct (index_rows_in_sync (map_to_list table) new_indexer)
    as [Hinv Hst].
  - apply NoDup_fst_map_to_list.
  - apply postings_exact_new.
  - intros i _. apply lookup_empty.
  - split; [|done]. rewrite Hst, list_to_map_to_list. simpl.
    by rewrite (right_id_L ∅ (∪)).
Qed.

(** X16: [create_meeting] with a primary key that is not in the table
    keeps the index in step with the table, and the new row is in the
    table. *)
Theorem create_meeting_in_sync (st : app_state Meeting) (new_id : Z)
    (db_meeting : Meeting) :
  in_sync raw_notes st → db st !! new_id = None →
  ∃ st', create_meeting raw_notes st new_id db_meeting
         = Returns (db_meeting, st')
    ∧ db st' = <[new_id := db_meeting]> (db st)
    ∧ in_sync raw_notes st'.
Proof.
  intros Hsync Hnew. eexists. split; [reflexivity|]. split; [done|].
  destruct Hsync as [Hst Hinv]. split; cbn [db keyword_indexer].
  - simpl. by rewrite Hst, fmap_insert.
  - apply postings_exact_index; [done|]. by rewrite Hst, lookup_fmap, Hnew.
Qed.


(** X18: [delete_meeting] raises 404 for an id that is not in the table;
    for one that is, it returns, the row is gone from the table, the index
    stays in step with it, and no query finds the id any more. *)
Theorem delete_meeting_in_sync (st : app_state Meeting) (meeting_id : Z) :
  (db st !! meeting_id = None →
   delete_meeting st meeting_id = HTTPException 404)
  ∧ (is_Some (db st !! meeting_id) → in_sync raw_notes st →
       ∃ st', delete_meeting st meeting_id = Returns st'
         ∧ db st' = delete meeting_id (db st)
         ∧ in_sync raw_notes st'
         ∧ ∀ query, meeting_id ∉ search_keywords (keyword_indexer st') query).
Proof.
  split.
  - intros Hnone. unfold delete_meeting. by rewrite Hnone.
  - intros [row Hrow] Hsync. unfold delete_meeting. rewrite Hrow.
    pose proof (in_sync_stored st meeting_id Hsync) as Hst.
    rewrite Hrow in Hst. simpl in Hst.
    pose proof (remove_meeting_stored _ _ _ Hst) as Hrm. rewrite Hrm.
    eexists. split; [reflexivity|]. split; [done|].
    destruct Hsync as [Hstore Hinv]. split; [split|]; cbn [db keyword_indexer].
    + simpl. by rewrite Hstore, fmap_delete.
    + by eapply postings_exact_remove.
    + intros query. by eapply removed_document_not_found.
Qed.

(** X19: while the index is in step with the table, [search_keywords]
    returns an id exactly when the table has a row for it whose notes share
    a token with the query. *)
Theorem in_sync_search (st : app_state Meeting) (query : string) (doc : Z) :
  in_sync raw_notes st →
  doc ∈ search_keywords (keyword_indexer st) query ↔
  ∃ row, db st !! doc = Some row
         ∧ ∃ w, w ∈ _tokenize query ∧ w ∈ _tokenize (raw_notes row).
Proof.
  intros Hsync. pose proof (in_sync_stored st doc Hsync) as Hst.
  destruct Hsync as [_ Hinv]. rewrite elem_of_search_keywords. split.
  - intros (w & Hw & (n & Hn & Hwn)%Hinv). rewrite Hst in Hn.
    destruct (db st !! doc) as [row|]; [|done]. injection Hn as <-. eauto.
  - intros (row & Hrow & w & Hw & Hwn). exists w. split; [done|].
    apply Hinv. exists (raw_notes row). by rewrite Hst, Hrow.
Qed.

(** When every entry has its row, the loop of [ask_ai] keeps every
    entry. *)
Lemma relevant_meetings_all_found (st : app_state Meeting) hits :
  Forall (λ hit, ∃ row, db st !! hit_meeting_id hit = Some row
                        ∧ hit_notes hit = raw_notes row) hits →
  relevant_meetings title raw_notes st hits
  = (λ hit, (hit_meeting_id hit,
             default EmptyString (title <$> db st !! hit_meeting_id hit),
             hit_notes hit)) <$> hits.
Proof.
  induction 1 as [|hit hits (row & Hrow & Hn) _ IH]; cbn; [done|].
  fold (relevant_meetings title raw_notes st hits).
  rewrite Hrow, IH. simpl. by rewrite Hn.
Qed.

(** X20: while the index is in step with the table, [ask_ai] returns. When
    [get_relevant_notes] with limit 5 finds nothing, a question without a
    token among them, the result is the fixed answer and no meeting. When
    it finds entries, the answer is the one [answer_question] gives for the
    question and one meeting for every entry, in the same order: the id of
    the entry, the title of its row and the notes the entry carries, which
    are the notes of the row; these meetings, at most 5, are the ones the
    result lists. *)
Theorem ask_ai_uses_ranked_hits (st : app_state Meeting) (question : string) :
  in_sync raw_notes st →
  let hits := get_relevant_notes (keyword_indexer st) question 5 in
  let found :=
    (λ hit, (hit_meeting_id hit,
             default EmptyString (title <$> db st !! hit_meeting_id hit),
             hit_notes hit)) <$> hits in
  length found ≤ 5
  ∧ Forall (λ hit, ∃ row, db st !! hit_meeting_id hit = Some row
                          ∧ hit_notes hit = raw_notes row) hits
  ∧ (hits ≠ [] →
     ask_ai title raw_notes answer_question st question
     = Returns
         (mkAnswer question (answer_question question found)
            ((λ hit, (hit_meeting_id hit,
                      default EmptyString
                        (title <$> db st !! hit_meeting_id hit))) <$> hits)))
  ∧ (hits = [] →
     ask_ai title raw_notes answer_question st question
     = Returns
         (mkAnswer question
            "I couldn't find any relevant meetings to answer your question."
            []))
  ∧ (_tokenize question = [] → hits = []).
Proof.
  intros Hsync hits found.
  assert (Hrows : Forall (λ hit, ∃ row, db st !! hit_meeting_id hit = Some row
                                        ∧ hit_notes hit = raw_notes row) hits).
  { apply Forall_forall.
    intros hit (Hd & _ & Hn)%elem_of_get_relevant_notes.
    pose proof (in_sync_stored st (hit_meeting_id hit) Hsync) as Hst.
    destruct Hsync as [_ Hinv].
    apply elem_of_matching_docs_posting in Hd as (w & _ & (n & Hs & _)%Hinv).
    rewrite Hst in Hs. rewrite Hst in Hn.
    destruct (db st !! hit_meeting_id hit) as [row|]; [|done]. eauto. }
  pose proof (relevant_meetings_all_found st hits Hrows) as Hfound.
  fold found in Hfound.
  assert (Hlen : length hits ≤ 5).
  { subst hits. rewrite get_relevant_notes_ranked, slice_to_nonneg by lia.
    rewrite length_fmap, length_take. lia. }
  split_and!.
  - subst found. by rewrite length_fmap.
  - done.
  - intros Hne. unfold ask_ai. fold hits. rewrite Hfound.
    destruct hits as [|hit hits'] eqn:Hh; [done|].
    do 2 f_equal. subst found. rewrite <- list_fmap_compose.
    by apply list_fmap_ext.
  - intros Hnil. unfold ask_ai. fold hits. by rewrite Hnil.
  - intros Htok. subst hits. unfold get_relevant_notes. by rewrite Htok.
Qed.

End HandlerFacts.

(** ** The tags of the agent *)

Module StrFacts.
Import Str.









End StrFacts.


(** ** Concrete runs *)

(** The runs are on ASCII text, where every instance of [PyStr] gives the
    tokens that [ascii_pystr] gives. *)
#[global] Existing Instance ascii_pystr.

Ltac by_computation :=
  lazymatch goal with |- ?P => refine (bool_decide_unpack P _) end;
  vm_compute; exact I.

Example tokenize_sample :
  _tokenize "Q3 Budget: re-plan the_budget, is it OK? budget" =
  ["budget"; "plan"; "the_budget"; "budget"]%string.
Proof. reflexivity. Qed.

Example tokenize_short_words : _tokenize "a an at is" = [].
Proof. reflexivity. Qed.

Example sorted_desc_stable_sample :
  sorted_desc [(1%Z, 2); (2%Z, 3); (3%Z, 2); (4%Z, 3)]
  = [(2%Z, 3); (4%Z, 3); (1%Z, 2); (3%Z, 2)].
Proof. reflexivity. Qed.

Example ranking_by_overlap :
  get_relevant_notes two_meetings "alpha beta gamma" 10 =
  [mkHit 2 3 "alpha beta gamma"; mkHit 1 2 "alpha beta"].
Proof. vm_compute. reflexivity. Qed.

Lemma two_meetings_reachable : reachable two_meetings.
Proof.
  unfold two_meetings. apply reach_index; [apply reach_index|].
  - apply reach_new.
  - apply lookup_empty.
  - simpl. rewrite lookup_insert_ne by done. apply lookup_empty.
Defined.

Lemma tokenless_meeting_reachable : reachable tokenless_meeting.
Proof. apply reach_index; [apply reach_new | apply lookup_empty]. Defined.

Example ranking_repeated_token :
  get_relevant_notes one_meeting "alpha alpha" 5 = [mkHit 1 2 "alpha beta"].
Proof. vm_compute. reflexivity. Qed.

Example distinct_tokens_repeated_token :
  distinct_token_score one_meeting "alpha alpha" 1 = 1.
Proof. vm_compute. reflexivity. Qed.

(** C1, the claim as worded fails: the query ["alpha alpha"] has one
    distinct token, and the meeting that has it is returned with score 2. *)
Lemma ranked_score_repeated_token :
  ¬ (∀ hit, hit ∈ get_relevant_notes one_meeting "alpha alpha" 5 →
            hit_score hit
            = distinct_token_score one_meeting "alpha alpha"
                (hit_meeting_id hit)).
Proof.
  intros Hall. specialize (Hall (mkHit 1 2 "alpha beta")).
  rewrite ranking_repeated_token in Hall.
  specialize (Hall (list_elem_of_here _ _)). cbn [hit_score hit_meeting_id] in Hall.
  rewrite distinct_tokens_repeated_token in Hall. discriminate.
Qed.

Lemma ranked_score_counts_occurrences_witness :
  let hit := mkHit 2 3 "alpha beta gamma" in
  hit ∈ get_relevant_notes two_meetings "alpha beta gamma" 10
  ∧ hit_score hit = occurrence_score two_meetings "alpha beta gamma" 2.
Proof.
  intros hit.
  assert (Hin : hit ∈ get_relevant_notes two_meetings "alpha beta gamma" 10).
  { rewrite ranking_by_overlap. left. }
  split; [exact Hin|].
  apply (proj1 (ranked_score_counts_occurrences
                  two_meetings "alpha beta gamma" 10) hit Hin).
Defined.

(** C3, the claim as worded fails: a meeting whose notes have no token is
    stored and is in no posting set. *)
Lemma lockstep_fails_without_tokens :
  reachable tokenless_meeting ∧ ¬ lockstep_posted_iff_stored tokenless_meeting.
Proof.
  split; [apply tokenless_meeting_reachable|].
  intros [Hiff _]. destruct (Hiff 7%Z) as [_ Hposted].
  destruct Hposted as (w & s & Hs & _).
  - exists "to do"%string. apply lookup_insert_eq.
  - change (index tokenless_meeting) with (∅ : gmap string (gset Z)) in Hs.
    by rewrite lookup_empty in Hs.
Qed.

Lemma reachable_lockstep_witness : lockstep two_meetings.
Proof. apply reachable_lockstep, two_meetings_reachable. Defined.

Lemma tokenize_maximal_runs_witness :
  _tokenize "   " = []
  ∧ ∃ runs,
      Text.maximal_runs Ascii7.is_word
        (Ascii7.lower_char <$> list_ascii_of_string "Q3 Budget: re-plan") runs
      ∧ runs = list_ascii_of_string <$> ["q3"; "budget"; "re"; "plan"]%string
      ∧ _tokenize "Q3 Budget: re-plan"
        = string_of_list_ascii <$> filter (λ w, 2 < length w) runs
      ∧ _tokenize "Q3 Budget: re-plan" = ["budget"; "plan"]%string.
Proof.
  split.
  - apply (proj1 (proj2 (tokenize_maximal_runs "   "))).
    repeat constructor.
  - assert (Hascii : Ascii7.is_ascii "Q3 Budget: re-plan") by by_computation.
    destruct (proj2 (proj2 (proj2 (tokenize_maximal_runs "Q3 Budget: re-plan")))
                Hascii) as (runs & Hruns & Htokens).
    exists runs.
    assert (Heq : runs
                  = list_ascii_of_string <$> ["q3"; "budget"; "re"; "plan"]%string).
    { rewrite (TextFacts.maximal_runs_unique _ _ _ _ Hruns
                 (TextFacts.findall_maximal_runs _ _)).
      vm_compute. reflexivity. }
    split_and!; [exact Hruns | exact Heq | exact Htokens |].
    rewrite Htokens, Heq. vm_compute. reflexivity.
Defined.

Lemma search_keywords_union_witness : search_keywords two_meetings "to" = [].
Proof.
  apply (proj2 (proj2 (proj2 (search_keywords_union two_meetings "to")))).
  reflexivity.
Defined.

Lemma ranked_limit_top_witness :
  length (get_relevant_notes two_meetings "alpha gamma" 1)
  = 1 `min` size (matching_docs two_meetings "alpha gamma").
Proof.
  assert (Hlim : (0 ≤ 1)%Z) by lia.
  exact (proj1 (ranked_limit_top two_meetings "alpha gamma" 1 Hlim)).
Defined.

Lemma remove_meeting_total_noop_witness :
  remove_meeting new_indexer 999 = Some new_indexer.
Proof.
  apply (proj2 (remove_meeting_total_noop new_indexer 999)).
  apply lookup_empty.
Defined.

Lemma other_documents_unchanged_witness :
  meeting_notes (index_meeting two_meetings 3 "gamma delta") !! 2%Z
  = meeting_notes two_meetings !! 2%Z.
Proof.
  assert (Hne : (3 ≠ 2)%Z) by lia.
  exact (proj1 (proj1
           (other_documents_unchanged two_meetings 3 2 "gamma delta" Hne))).
Defined.

Example ranking_negative_limit_sample :
  get_relevant_notes two_meetings "alpha gamma" (-1)
  = [mkHit 2 2 "alpha beta gamma"].
Proof. vm_compute. reflexivity. Qed.

Lemma ranked_negative_limit_witness :
  let n := size (matching_docs two_meetings "alpha gamma") in
  let full := get_relevant_notes two_meetings "alpha gamma" (Z.of_nat n) in
  let kept := get_relevant_notes two_meetings "alpha gamma" (- Z.of_nat 1) in
  StronglySorted (λ a b, hit_score b ≤ hit_score a) full
  ∧ kept = take (n - 1) full
  ∧ length (drop (n - 1) full) = 1
  ∧ (∀ hit dropped, hit ∈ kept → dropped ∈ drop (n - 1) full →
       hit_score dropped ≤ hit_score hit).
Proof.
  intros n full kept.
  assert (Hk : 0 < 1 ≤ size (matching_docs two_meetings "alpha gamma"))
    by (vm_compute; lia).
  destruct (ranked_negative_limit two_meetings "alpha gamma" 1 Hk)
    as (_ & _ & Hsorted & _ & _ & _ & Hkept & _ & _ & Hdrop & Hlow & _).
  split_and!; [exact Hsorted | exact Hkept | exact Hdrop | exact Hlow].
Defined.

Lemma four_meetings_reachable : reachable four_meetings.
Proof.
  unfold four_meetings. repeat apply reach_index; try apply reach_new;
    reflexivity.
Defined.

Lemma four_meetings_absent : absent four_meetings 5.
Proof.
  apply postings_exact_absent.
  - apply reachable_postings_exact, four_meetings_reachable.
  - reflexivity.
Defined.

(** C2, the claim as worded fails. The four meetings have the score 1 for
    the query ["alpha"]; with the limit 2 the call returns the first two of
    the posting set in the order of its iteration: 9 and 2 before meeting 5
    is indexed and removed, 1 and 2 after. *)
Lemma index_then_remove_order_differs :
  absent four_meetings 5
  ∧ ∃ self',
      remove_meeting (index_meeting four_meetings 5 "alpha") 5 = Some self'
      ∧ @get_relevant_notes _ order_before four_meetings "alpha" 2
        = [mkHit 9 1 "alpha"; mkHit 2 1 "alpha"]
      ∧ @get_relevant_notes _ order_after self' "alpha" 2
        = [mkHit 1 1 "alpha"; mkHit 2 1 "alpha"]
      ∧ ¬ same_results order_before order_after four_meetings self'.
Proof.
  split; [apply four_meetings_absent|].
  pose proof (remove_meeting_stored (index_meeting four_meetings 5 "alpha") 5
                "alpha" eq_refl) as Hrm.
  eexists. split; [exact Hrm|].
  assert (Hbefore : @get_relevant_notes _ order_before four_meetings "alpha" 2
                    = [mkHit 9 1 "alpha"; mkHit 2 1 "alpha"])
    by (vm_compute; reflexivity).
  split; [exact Hbefore|].
  match goal with |- ?l = ?r ∧ _ =>
    assert (Hafter : l = r) by (vm_compute; reflexivity) end.
  split; [exact Hafter|].
  intros Hsame. destruct (Hsame "alpha"%string) as [_ Hr].
  specialize (Hr 2%Z). rewrite Hbefore, Hafter in Hr. discriminate.
Qed.

Lemma index_then_remove_same_up_to_order_witness :
  absent four_meetings 5
  ∧ ∃ self',
      remove_meeting (index_meeting four_meetings 5 "alpha") 5 = Some self'
      ∧ same_results_up_to_order order_before order_after four_meetings self'.
Proof.
  split; [apply four_meetings_absent|].
  apply (index_then_remove_same_up_to_order order_before order_after
           four_meetings 5 "alpha" four_meetings_absent).
Defined.

(** The spec's re-index example: after remove and a new add the old tokens
    no longer find the meeting and the new ones do. *)
Example reindex_overwrite :
  ∃ self', remove_meeting (index_meeting new_indexer 1 "alpha beta") 1
           = Some self'
    ∧ search_keywords (index_meeting self' 1 "gamma delta") "alpha" = []
    ∧ search_keywords (index_meeting self' 1 "gamma delta") "gamma" = [1%Z].
Proof. eexists. split; [reflexivity|]. split; vm_compute; reflexivity. Qed.

(** ** Concrete runs of the further properties *)

Example tokenize_budget_plan : _tokenize "Budget plan" = ["budget"; "plan"]%string.
Proof. reflexivity. Qed.

Example generate_tags_sample :
  _generate_tags (fixed_reply " budget , Q3 planning,, hiring ,a,b,c ")
    "notes" "summary"
  = ["budget"; "Q3 planning"; EmptyString; "hiring"; "a"]%string.
Proof. reflexivity. Qed.

Lemma one_meeting_reachable : reachable one_meeting.
Proof. apply reach_index; [apply reach_new | apply lookup_empty]. Defined.

Lemma sample_app_in_sync : in_sync (λ m : string, m) sample_app.
Proof.
  split.
  - unfold sample_app. cbn [keyword_indexer db]. unfold one_meeting. simpl.
    by rewrite map_fmap_singleton, insert_empty.
  - apply reachable_postings_exact, one_meeting_reachable.
Defined.

Lemma tokenize_tokens_wellformed_witness :
  2 < String.length "budget"
  ∧ Forall (λ c, Ascii7.seven_bit c ∧ Ascii7.is_word c = true
                 ∧ Ascii7.lower_char c = c)
      (list_ascii_of_string "budget").
Proof.
  apply (tokenize_tokens_wellformed "Budget plan" "budget").
  - rewrite tokenize_budget_plan. left.
  - by_computation.
Defined.

Lemma tokenize_token_fixpoint_witness : _tokenize "budget" = ["budget"]%string.
Proof.
  apply (tokenize_token_fixpoint "Budget plan" "budget").
  - by_computation.
  - rewrite tokenize_budget_plan. left.
Defined.

Lemma tokenize_app_separator_witness :
  _tokenize ("alpha" +:+ ", " +:+ "beta") = _tokenize "alpha" ++ _tokenize "beta".
Proof.
  apply (tokenize_app_separator "alpha" ", " "beta").
  - by_computation.
  - by_computation.
  - by_computation.
  - discriminate.
  - repeat constructor.
Defined.

Lemma remove_meeting_twice_witness :
  ∃ self', remove_meeting one_meeting 1 = Some self'
           ∧ remove_meeting self' 1 = Some self'.
Proof.
  pose proof (remove_meeting_stored one_meeting 1 "alpha beta" eq_refl) as Hrm.
  eexists. split; [exact Hrm|].
  exact (remove_meeting_twice one_meeting 1 _ Hrm).
Defined.

Lemma index_keys_never_removed_witness :
  ∃ self', remove_meeting one_meeting 1 = Some self'
           ∧ dom (index one_meeting) ⊆ dom (index self').
Proof.
  pose proof (remove_meeting_stored one_meeting 1 "alpha beta" eq_refl) as Hrm.
  eexists. split; [exact Hrm|].
  exact (proj1 (proj2 (index_keys_never_removed one_meeting 1 "alpha beta")
                  _ Hrm)).
Defined.

Lemma double_index_leaves_stale_posting_witness :
  ∃ self', remove_meeting (index_meeting one_meeting 1 "gamma delta") 1
           = Some self'
    ∧ meeting_notes self' !! 1%Z = None
    ∧ 1%Z ∈ posting (index self') "alpha"
    ∧ ∀ query, "alpha"%string ∈ _tokenize query →
               1%Z ∈ search_keywords self' query.
Proof.
  apply (double_index_leaves_stale_posting one_meeting 1 "gamma delta" "alpha");
    by_computation.
Defined.

Lemma search_finds_documents_sharing_token_witness :
  2%Z ∈ search_keywords two_meetings "gamma rays" ↔
  ∃ notes, meeting_notes two_meetings !! 2%Z = Some notes
           ∧ ∃ w, w ∈ _tokenize "gamma rays" ∧ w ∈ _tokenize notes.
Proof.
  apply (search_finds_documents_sharing_token two_meetings "gamma rays" 2).
  apply two_meetings_reachable.
Defined.

Lemma ranked_hits_of_stored_documents_witness :
  ∃ notes, meeting_notes two_meetings !! 2%Z = Some notes
           ∧ "alpha beta gamma"%string = notes
           ∧ 3 = length (filter (λ w, w ∈ _tokenize notes)
                           (_tokenize "alpha beta gamma"))
           ∧ 0 < 3.
Proof.
  apply (ranked_hits_of_stored_documents two_meetings "alpha beta gamma" 10
           (mkHit 2 3 "alpha beta gamma")).
  - apply two_meetings_reachable.
  - rewrite ranking_by_overlap. left.
Defined.

Lemma ranked_ids_are_search_results_witness :
  hit_meeting_id <$> get_relevant_notes two_meetings "alpha gamma" 10
    ≡ₚ search_keywords two_meetings "alpha gamma".
Proof.
  apply (proj2 (ranked_ids_are_search_results two_meetings "alpha gamma" 10)).
  by_computation.
Defined.

Lemma ranked_limit_prefix_witness :
  get_relevant_notes two_meetings "alpha gamma" 1
  = take (Z.to_nat 1) (get_relevant_notes two_meetings "alpha gamma" 2).
Proof.
  assert (Hlim : (0 ≤ 1 ≤ 2)%Z) by lia.
  exact (ranked_limit_prefix two_meetings "alpha gamma" 1 2 Hlim).
Defined.

Lemma ranked_limit_drops_all_witness :
  get_relevant_notes two_meetings "alpha gamma" (-5) = [].
Proof.
  apply (ranked_limit_drops_all two_meetings "alpha gamma" (-5)).
  by_computation.
Defined.

Lemma indexed_document_found_by_own_tokens_witness :
  3%Z ∈ search_keywords (index_meeting two_meetings 3 "Budget plan") "budget".
Proof.
  apply (indexed_document_found_by_own_tokens two_meetings 3 "Budget plan").
  - by_computation.
  - rewrite tokenize_budget_plan. left.
Defined.

Lemma removed_document_in_no_result_witness :
  ∃ self', remove_meeting one_meeting 1 = Some self'
           ∧ 1%Z ∉ search_keywords self' "alpha".
Proof.
  pose proof (remove_meeting_stored one_meeting 1 "alpha beta" eq_refl) as Hrm.
  eexists. split; [exact Hrm|].
  exact (proj1 (removed_document_in_no_result one_meeting 1 _ "alpha"
                  one_meeting_reachable Hrm)).
Defined.

Lemma create_meeting_in_sync_witness :
  ∃ st', create_meeting (λ m : string, m) sample_app 2 "beta gamma"
         = Returns ("beta gamma"%string, st')
    ∧ db st' = <[2%Z := "beta gamma"%string]> (db sample_app)
    ∧ in_sync (λ m : string, m) st'.
Proof.
  apply (create_meeting_in_sync (λ m : string, m) sample_app 2 "beta gamma").
  - apply sample_app_in_sync.
  - reflexivity.
Defined.


Lemma delete_meeting_in_sync_witness :
  ∃ st', delete_meeting sample_app 1 = Returns st'
    ∧ db st' = delete 1%Z (db sample_app)
    ∧ in_sync (λ m : string, m) st'
    ∧ ∀ query, 1%Z ∉ search_keywords (keyword_indexer st') query.
Proof.
  apply (proj2 (delete_meeting_in_sync (λ m : string, m) sample_app 1)).
  - by exists "alpha beta"%string.
  - apply sample_app_in_sync.
Defined.

Lemma in_sync_search_witness :
  1%Z ∈ search_keywords (keyword_indexer sample_app) "beta" ↔
  ∃ row, db sample_app !! 1%Z = Some row
         ∧ ∃ w, w ∈ _tokenize "beta" ∧ w ∈ _tokenize row.
Proof.
  apply (in_sync_search (λ m : string, m) sample_app "beta" 1).
  apply sample_app_in_sync.
Defined.

Example ask_ai_sample :
  ask_ai (λ _ : string, "title"%string) (λ m : string, m) first_notes
    sample_app "alpha"
  = Returns (mkAnswer "alpha" "alpha beta" [(1%Z, "title"%string)]).
Proof. vm_compute. reflexivity. Qed.

Lemma ask_ai_uses_ranked_hits_witness :
  let hits := get_relevant_notes (keyword_indexer sample_app) "alpha" 5 in
  let found :=
    (λ hit, (hit_meeting_id hit,
             default EmptyString
               ((λ _ : string, "title"%string)
                  <$> db sample_app !! hit_meeting_id hit),
             hit_notes hit)) <$> hits in
  ask_ai (λ _ : string, "title"%string) (λ m : string, m) first_notes
    sample_app "alpha"
  = Returns
      (mkAnswer "alpha" (first_notes "alpha" found)
         ((λ hit, (hit_meeting_id hit,
                   default EmptyString
                     ((λ _ : string, "title"%string)
                        <$> db sample_app !! hit_meeting_id hit))) <$> hits)).
Proof.
  intros hits found.
  apply (proj1 (proj2 (proj2
           (ask_ai_uses_ranked_hits (λ _ : string, "title"%string)
              (λ m : string, m) first_notes sample_app "alpha"
              sample_app_in_sync)))).
  by_computation.
Defined.
